(** * rpitouch/app.py: the touch-controlled media viewer

    A shallow embedding of [src/rpitouch/app.py].

    - File names and paths are byte strings; [lower] acts on ASCII letters.
      The catalogue is a list of paths, the extension sets are finite sets.
    - The local variables of [main] form a record that is threaded through
      an error monad; an uncaught Python exception is an outcome [Raise].
    - The clock [pygame.time.get_ticks()] is a field of that record.  It
      moves while the program blocks ([pygame.time.wait], [Popen.wait],
      [clock.tick]); computation between blocking calls takes no time.
    - A player process is described by the clock value at which it is gone
      and by its reaction time to SIGTERM; both come from the environment,
      as do the installed players and the images that can be decoded.
      [subprocess.Popen] on a command found by [shutil.which] succeeds.
    - Each iteration of the main loop receives the events of
      [pygame.event.get()], the number of tokens its queue loop takes out of
      [touch_queue], and the time [clock.tick(30)] blocks.
    - Every rendering and process call is recorded in a trace, so that
      statements about order can be made.
    - Outside the embedding: the text that [dbg] and [print] write (and any
      error of writing it), the calls of [main] before its first [show]
      ([pygame.init], [start_evdev_listener], [set_mode]) and after the loop
      ([pygame.quit], [sys.exit]), errors of pygame and of
      [subprocess.Popen], and the time that [xsetroot] and the
      re-initialisation of the display take in [reset_display]. *)

From Stdlib Require Import ZArith Lia Ascii.
From stdpp Require Import base strings list gmap sorting.

Local Open Scope string_scope.

(** ** Strings and paths (the parts of [str] and [os.path] that are used) *)

Module Path.

(** [c.lower()] on an ASCII letter; every other byte is unchanged. *)
Definition lower_ascii (c : ascii) : ascii :=
  let n := Ascii.N_of_ascii c in
  if ((65 <=? n) && (n <=? 90))%N then Ascii.ascii_of_N (n + 32) else c.

(** [s.lower()] *)
Fixpoint lower (s : string) : string :=
  match s with
  | "" => ""
  | String c r => String (lower_ascii c) (lower r)
  end.

(** The text that follows the last occurrence of [c] in [s], that is
    [s[s.rfind(c)+1:]], or [None] when [s.rfind(c) = -1]. *)
Fixpoint after_last (c : ascii) (s : string) : option string :=
  match s with
  | "" => None
  | String a r =>
      match after_last c r with
      | Some t => Some t
      | None => if Ascii.eqb a c then Some r else None
      end
  end.

(** The component after the last separator: [p[p.rfind('/')+1:]]. *)
Definition basename (p : string) : string :=
  default p (after_last "/" p).

(** The "skip all leading dots" loop of [genericpath._splitext]. *)
Fixpoint skip_dots (s : string) : string :=
  match s with
  | String "." r => skip_dots r
  | _ => s
  end.

(** [os.path.splitext(p)[1]]: everything from the last dot of the last
    path component, leading dots of that component not counting; empty
    when there is no such dot. *)
Definition splitext_ext (p : string) : string :=
  match after_last "." (skip_dots (basename p)) with
  | Some t => String "." t
  | None => ""
  end.

Definition startswith_sep (p : string) : bool :=
  match p with String "/" _ => true | _ => false end.

Fixpoint endswith_sep (p : string) : bool :=
  match p with
  | "" => false
  | String a "" => Ascii.eqb a "/"
  | String _ r => endswith_sep r
  end.

(** [os.path.join(a, b)] of [posixpath], for two components. *)
Definition join (a b : string) : string :=
  if startswith_sep b then b
  else if String.eqb a "" || endswith_sep a then a +:+ b
  else a +:+ "/" +:+ b.

(** [os.path.isabs] *)
Definition isabs (p : string) : bool := startswith_sep p.

End Path.

(** ** The catalogue *)

Definition MEDIA_DIR : string := "/home/calen/projects/rpi-touch-app/media/".

Definition IMG_EXTS : gset string := {[ ".jpg"; ".jpeg"; ".png"; ".bmp"; ".gif" ]}.
Definition VID_EXTS : gset string := {[ ".mp4"; ".mov"; ".mkv"; ".avi" ]}.

(** [sorted(names)]: Python orders [str] by code point, which on byte
    strings is [String.le]; the order is total and antisymmetric, so the
    result does not depend on the sorting algorithm. *)
Definition sorted (names : list string) : list string :=
  merge_sort String.le names.

(** The condition of the comprehension in [load_media_list]. *)
Definition supported (f : string) : bool :=
  bool_decide (Path.lower (Path.splitext_ext f) ∈ IMG_EXTS ∪ VID_EXTS).

(** The test [ext in IMG_EXTS] of [show], on the path it is made for. *)
Definition is_image (path : string) : bool :=
  bool_decide (Path.lower (Path.splitext_ext path) ∈ IMG_EXTS).

(** [load_media_list()], as a function of what [os.listdir(MEDIA_DIR)]
    returns. *)
Definition load_media_list (listing : list string) : list string :=
  Path.join MEDIA_DIR <$> filter (λ f, supported f = true) (sorted listing).

(** ** Exceptions, events, the environment *)

(** The exceptions that the embedded statements raise themselves.  Those
    of the library calls that are outside the embedding (see the head of
    the file) have no constructor here: an outcome [Ok] says that neither
    of these two was raised. *)
Inductive exn : Type :=
  | TimeoutExpired   (* subprocess.TimeoutExpired, from Popen.wait *)
  | IndexError.      (* media[idx] out of range *)

Inductive Key : Type := K_ESCAPE | K_other.

(** What [pygame.event.get()] yields, as far as [main] tells events apart. *)
Inductive Event : Type :=
  | QUIT
  | KEYDOWN (key : Key)
  | FINGERDOWN
  | MOUSEBUTTONDOWN
  | OtherEvent.

(** A [subprocess.Popen] handle together with the fate of its process:
    [exits_at] is the clock value at which the process is gone ([None]: it
    runs for ever), [term_latency] the time it needs to exit once it has
    received SIGTERM ([None]: it ignores the signal). *)
Record Popen : Type := mkPopen {
  exits_at : option Z;
  term_latency : option Z
}.

(** Everything outside the program that its behaviour depends on. *)
Record Env : Type := mkEnv {
  which : string → bool;          (* shutil.which(name) is not None *)
  decodes : string → bool;        (* loading and scaling the image succeeds *)
  lifetime : nat → option Z;      (* run time of the n-th spawned player *)
  sigterm : nat → option Z        (* its reaction time to SIGTERM *)
}.

(** Why [show] was called.  The program does not record this; the model
    keeps it in the trace so that statements can tell the call sites apart. *)
Inductive Cause : Type :=
  | Start         (* show(idx) before the loop *)
  | Press         (* FINGERDOWN / MOUSEBUTTONDOWN branch of the event loop *)
  | Completion    (* the auto-advance block *)
  | Evdev.        (* the touch_queue loop *)

(** Observable actions, in the order the program performs them. *)
Inductive Action : Type :=
  | ShowCalled (c : Cause) (i : nat) (t : Z)  (* dbg "show(i) called" at clock t *)
  | EventSeen (e : Event)                     (* dbg "Event: ..." *)
  | PressIgnored                              (* dbg "Press ignored ..." *)
  | EvdevIgnored                              (* dbg "Evdev press ignored ..." *)
  | Terminate                                 (* current_proc.terminate() *)
  | Blackout (ms : Z)                         (* blackout(screen, ms) *)
  | ResetDisplay                              (* reset_display() *)
  | DrawImage (path : string)                 (* display_image, success *)
  | ErrorFrame (path : string)                (* display_image, red screen *)
  | Launch (cmd : list string)                (* subprocess.Popen(cmd, ...) *)
  | NoPlayer                                  (* "No supported video player ..." *)
  | BlackFrame.                               (* screen.fill black; flip *)

(** The local variables of [main], the clock, and the trace of actions
    (most recent first). *)
Record State : Type := mkState {
  idx : nat;
  current_proc : option Popen;
  last_was_video : bool;
  last_show_ms : Z;
  running : bool;
  screen : nat;          (* which display surface [screen] is bound to *)
  ticks : Z;             (* pygame.time.get_ticks() *)
  spawned : nat;         (* number of players started so far *)
  trace : list Action
}.

Inductive Outcome : Type :=
  | Ok (s : State)
  | Raise (e : exn) (s : State).   (* uncaught exception, with the state it left *)

Definition bind (o : Outcome) (k : State → Outcome) : Outcome :=
  match o with
  | Ok s => k s
  | Raise e s => Raise e s
  end.

Notation "'let!' s ':=' o 'in' k" := (bind o (λ s, k))
  (at level 10, s name, o at level 100, k at level 200).

Definition set_idx (v : nat) (s : State) : State :=
  mkState v (current_proc s) (last_was_video s) (last_show_ms s) (running s)
          (screen s) (ticks s) (spawned s) (trace s).
Definition set_current_proc (v : option Popen) (s : State) : State :=
  mkState (idx s) v (last_was_video s) (last_show_ms s) (running s)
          (screen s) (ticks s) (spawned s) (trace s).
Definition set_last_was_video (v : bool) (s : State) : State :=
  mkState (idx s) (current_proc s) v (last_show_ms s) (running s)
          (screen s) (ticks s) (spawned s) (trace s).
Definition set_last_show_ms (v : Z) (s : State) : State :=
  mkState (idx s) (current_proc s) (last_was_video s) v (running s)
          (screen s) (ticks s) (spawned s) (trace s).
Definition set_running (v : bool) (s : State) : State :=
  mkState (idx s) (current_proc s) (last_was_video s) (last_show_ms s) v
          (screen s) (ticks s) (spawned s) (trace s).
Definition set_screen (v : nat) (s : State) : State :=
  mkState (idx s) (current_proc s) (last_was_video s) (last_show_ms s) (running s)
          v (ticks s) (spawned s) (trace s).
Definition set_spawned (v : nat) (s : State) : State :=
  mkState (idx s) (current_proc s) (last_was_video s) (last_show_ms s) (running s)
          (screen s) (ticks s) v (trace s).

(** The clock moves only while the program blocks. *)
Definition sleep (ms : Z) (s : State) : State :=
  mkState (idx s) (current_proc s) (last_was_video s) (last_show_ms s) (running s)
          (screen s) (ticks s + ms) (spawned s) (trace s).

Definition log (a : Action) (s : State) : State :=
  mkState (idx s) (current_proc s) (last_was_video s) (last_show_ms s) (running s)
          (screen s) (ticks s) (spawned s) (a :: trace s).

(** ** Processes *)

(** [p.poll() is not None] at clock [t]. *)
Definition poll (p : Popen) (t : Z) : bool :=
  match exits_at p with
  | Some e => (e <=? t)%Z
  | None => false
  end.

(** [p.terminate()] at clock [t]: SIGTERM; nothing if the process is gone. *)
Definition terminate (p : Popen) (t : Z) : Popen :=
  if poll p t then p
  else match term_latency p with
       | Some d =>
           mkPopen (Some (match exits_at p with
                          | Some e => Z.min e (t + d)
                          | None => t + d
                          end)%Z) (term_latency p)
       | None => p
       end.

(** [p.wait(timeout)] at clock [t]: the clock value at which the call
    ends, and whether it ends by returning ([true]) or by raising
    [TimeoutExpired] ([false]). *)
Definition wait (p : Popen) (timeout t : Z) : Z * bool :=
  match exits_at p with
  | Some e => if (e <=? t + timeout)%Z then (Z.max t e, true)
              else ((t + timeout)%Z, false)
  | None => ((t + timeout)%Z, false)
  end.

(** ** The program *)

Definition MIN_VIEW_MS : Z := 1000.

(** One iteration of [while running]: what [pygame.event.get()] returns,
    how many tokens the [touch_queue] loop takes out of the queue, and how
    long [clock.tick(30)] blocks (in ms). *)
Record TickInput : Type := mkTick {
  events : list Event;
  touches : nat;
  frame_wait : N
}.

Section Program.

Variable media : list string.   (* media = load_media_list() *)
Variable env : Env.

Definition dbg (a : Action) (s : State) : State := log a s.

(** [blackout(scr, ms)] *)
Definition blackout (ms : Z) (s : State) : State :=
  sleep ms (log (Blackout ms) s).

(** [screen = reset_display()]: the display is bound to a new surface.  The
    time the call takes ([xsetroot], quitting and re-initialising the
    display) is not part of the clock here. *)
Definition reset_display (s : State) : State :=
  set_screen (S (screen s)) (log ResetDisplay s).

(** [display_image(screen, path)]: any exception ends in the red screen. *)
Definition display_image (path : string) (s : State) : State :=
  if decodes env path then log (DrawImage path) s
  else log (ErrorFrame path) s.

(** The command chosen by [play_video]: omxplayer, then cvlc, then mpv. *)
Definition player_cmd (path : string) : option (list string) :=
  if which env "omxplayer" then
    Some ["omxplayer"; "--no-osd"; "--aspect-mode"; "fill"; path]
  else if which env "cvlc" then
    Some ["cvlc"; "--fullscreen"; "--no-video-title-show"; "--play-and-exit"; path]
  else if which env "mpv" then
    Some ["mpv"; "--fs"; "--quiet"; path]
  else None.

(** [play_video(path)]: the handle or [None], and the state after it. *)
Definition play_video (path : string) (s : State) : option Popen * State :=
  match player_cmd path with
  | Some cmd =>
      let n := spawned s in
      (Some (mkPopen ((λ d, ticks s + d)%Z <$> lifetime env n) (sigterm env n)),
       set_spawned (S n) (log (Launch cmd) s))
  | None => (None, log NoPlayer s)
  end.

(** The block under "stop any running video" in [show]. *)
Definition stop_running_video (s : State) : Outcome :=
  match current_proc s with
  | Some p =>
      if poll p (ticks s) then Ok s
      else
        let p := terminate p (ticks s) in
        let s := set_current_proc (Some p) (log Terminate s) in
        let '(t, returned) := wait p 2000 (ticks s) in
        let s := sleep (t - ticks s) s in
        if returned then Ok (set_last_was_video true (set_current_proc None s))
        else Raise TimeoutExpired s
  | None => Ok s
  end.

(** [show(idx)] *)
Definition show (c : Cause) (i : nat) (s : State) : Outcome :=
  let s := dbg (ShowCalled c i (ticks s)) s in
  let s := set_last_show_ms (ticks s) s in
  match media !! i with
  | None => Raise IndexError s
  | Some path =>
      let! s := stop_running_video s in
      if is_image path then
        let s := if last_was_video s then reset_display (blackout 50 s) else s in
        Ok (set_last_was_video false (display_image path s))
      else
        let '(p, s) := play_video path s in
        let s := set_current_proc p s in
        let s := match p with
                 | None => log BlackFrame (blackout 50 s)
                 | Some _ => s
                 end in
        Ok (set_last_was_video true s)
  end.

(** [idx = (idx + 1) % len(media); show(idx)] *)
Definition advance (c : Cause) (s : State) : Outcome :=
  let i := (idx s + 1) mod length media in
  show c i (set_idx i s).

(** The body of [for event in pygame.event.get()]. *)
Definition handle_event (e : Event) (s : State) : Outcome :=
  let s := dbg (EventSeen e) s in
  match e with
  | QUIT => Ok (set_running false s)
  | KEYDOWN K_ESCAPE => Ok (set_running false s)
  | FINGERDOWN | MOUSEBUTTONDOWN =>
      if (MIN_VIEW_MS <=? ticks s - last_show_ms s)%Z then advance Press s
      else Ok (dbg PressIgnored s)
  | _ => Ok s
  end.

Fixpoint handle_events (evs : list Event) (s : State) : Outcome :=
  match evs with
  | [] => Ok s
  | e :: evs => let! s := handle_event e s in handle_events evs s
  end.

(** The block under "Auto-advance if the current video finished". *)
Definition auto_advance (s : State) : Outcome :=
  match current_proc s with
  | Some p =>
      if poll p (ticks s) then
        advance Completion (set_last_was_video true (set_current_proc None s))
      else Ok s
  | None => Ok s
  end.

(** The body of [while not touch_queue.empty()]. *)
Definition handle_touch (s : State) : Outcome :=
  if (MIN_VIEW_MS <=? ticks s - last_show_ms s)%Z then advance Evdev s
  else Ok (dbg EvdevIgnored s).

Fixpoint handle_touches (n : nat) (s : State) : Outcome :=
  match n with
  | O => Ok s
  | S n => let! s := handle_touch s in handle_touches n s
  end.

(** The body of [while running]. *)
Definition tick (inp : TickInput) (s : State) : Outcome :=
  let! s := handle_events (events inp) s in
  let! s := auto_advance s in
  let! s := handle_touches (touches inp) s in
  Ok (sleep (Z.of_N (frame_wait inp)) s).

(** What follows the loop: a last [terminate()], without waiting. *)
Definition shutdown (s : State) : State :=
  match current_proc s with
  | Some p =>
      if poll p (ticks s) then s
      else set_current_proc (Some (terminate p (ticks s))) (log Terminate s)
  | None => s
  end.

(** [while running: ...] over the ticks that are given, then the
    shutdown code if the loop was left. *)
Fixpoint main_loop (inps : list TickInput) (s : State) : Outcome :=
  if running s then
    match inps with
    | [] => Ok s
    | inp :: inps => let! s := tick inp s in main_loop inps s
    end
  else Ok (shutdown s).

(** The first [show(idx)] of [main], on the local variables as [main] has
    set them before it; [t0] is the clock when [last_show_ms] is first
    assigned.  The calls of [main] that come before ([pygame.init],
    [start_evdev_listener], [set_mode]) are not embedded. *)
Definition boot (t0 : Z) : Outcome :=
  show Start 0 (mkState 0 None false t0 true 0 t0 0 []).

(** The states the program is in after start-up and after each completed
    step of the loop body: one event handled, the completion check done, one
    touch token handled, any time spent waiting.  (Not the states inside
    such a step, as between [idx = (idx + 1) % len(media)] and
    [show(idx)].) *)
Inductive reachable : State → Prop :=
  | reach_boot t0 s : boot t0 = Ok s → reachable s
  | reach_event e s s' : reachable s → handle_event e s = Ok s' → reachable s'
  | reach_auto s s' : reachable s → auto_advance s = Ok s' → reachable s'
  | reach_touch s s' : reachable s → handle_touch s = Ok s' → reachable s'
  | reach_sleep d s : reachable s → (0 ≤ d)%Z → reachable (sleep d s).

End Program.

(** [main()], given the directory listing and the ticks; [None] is the
    [sys.exit(1)] for an empty catalogue. *)
Definition main (env : Env) (listing : list string) (t0 : Z)
    (inps : list TickInput) : option Outcome :=
  match load_media_list listing with
  | [] => None
  | media => Some (let! s := boot media env t0 in main_loop media env inps s)
  end.

(** ** The evdev listener *)

Module Evdev.

(** An [evdev.InputDevice]: its path, its name, and what [capabilities()]
    returns, a dictionary from event types to lists of event codes. *)
Record InputDevice : Type := mkDevice {
  dev_path : string;
  dev_name : string;
  capabilities : gmap Z (list Z)
}.

(** An event read from the device. *)
Record InputEvent : Type := mkEvent {
  ev_type : Z;
  ev_code : Z;
  ev_value : Z
}.

Section Listener.

(** [evdev.ecodes.EV_KEY] and [evdev.ecodes.BTN_TOUCH]. *)
Variables EV_KEY BTN_TOUCH : Z.

(** [BTN_TOUCH in d.capabilities().get(EV_KEY, [])] *)
Definition adverts_touch (d : InputDevice) : bool :=
  bool_decide (BTN_TOUCH ∈ default [] (capabilities d !! EV_KEY)).

(** [start_evdev_listener()]: the device the worker thread is started on,
    or [None] when the function returns without starting one.  The argument
    is [None] when [import evdev] fails and otherwise the devices of
    [evdev.list_devices()], in that order. *)
Definition start_evdev_listener (evdev : option (list InputDevice))
    : option InputDevice :=
  match evdev with
  | None => None
  | Some all_devices =>
      let devices := filter (λ d, adverts_touch d = true) all_devices in
      match devices with
      | [] => None
      | dev :: _ => Some dev
      end
  end.

(** The test in [_worker]. *)
Definition is_touch_press (ev : InputEvent) : bool :=
  (ev_type ev =? EV_KEY)%Z && (ev_code ev =? BTN_TOUCH)%Z && (ev_value ev =? 1)%Z.

(** [_worker(device)]: what is put into [touch_queue] while the events
    [evs] are read. *)
Fixpoint worker (evs : list InputEvent) : list bool :=
  match evs with
  | [] => []
  | ev :: evs => if is_touch_press ev then true :: worker evs else worker evs
  end.

End Listener.

End Evdev.

(** ** Reading traces *)

(** The clock value of the most recent call of [show]. *)
Fixpoint last_show (tr : list Action) : option Z :=
  match tr with
  | [] => None
  | ShowCalled _ _ t :: _ => Some t
  | _ :: older => last_show older
  end.

(** The number of calls [show(idx)] that followed an [idx = (idx + 1) % n]. *)
Fixpoint advances (tr : list Action) : nat :=
  match tr with
  | [] => 0
  | ShowCalled Start _ _ :: older => advances older
  | ShowCalled _ _ _ :: older => S (advances older)
  | _ :: older => advances older
  end.

(** Every call of [show] whose cause is selected by [g] comes at least
    [MIN_VIEW_MS] after the call of [show] before it. *)
Fixpoint dwell_between (g : Cause → bool) (tr : list Action) : Prop :=
  match tr with
  | [] => True
  | ShowCalled c _ t :: older =>
      (g c = true → ∃ t0, last_show older = Some t0 ∧ (MIN_VIEW_MS ≤ t - t0)%Z)
      ∧ dwell_between g older
  | _ :: older => dwell_between g older
  end.

(** The causes behind a dwell check in the program. *)
Definition gated (c : Cause) : bool :=
  match c with Press | Evdev => true | Start | Completion => false end.

(** Every cause of an advance. *)
Definition any_advance (c : Cause) : bool :=
  match c with Start => false | _ => true end.

(** The part of the loop body an action belongs to; [None] for what
    [show] does after its first line. *)
Definition phase_of (a : Action) : option Cause :=
  match a with
  | ShowCalled c _ _ => Some c
  | EventSeen _ | PressIgnored => Some Press
  | EvdevIgnored => Some Evdev
  | _ => None
  end.

(** An iteration of the loop without a pointer press and without a
    touch-queue token. *)
Definition is_press (e : Event) : bool :=
  match e with FINGERDOWN | MOUSEBUTTONDOWN => true | _ => false end.

Definition quiet (inp : TickInput) : bool :=
  forallb (λ e, negb (is_press e)) (events inp) && Nat.eqb (touches inp) 0.

Definition is_event_seen (a : Action) : bool :=
  match a with EventSeen _ => true | _ => false end.

(** All of [seg] was done by [show] after its first line. *)
Definition effects (seg : list Action) : Prop :=
  Forall (λ a, phase_of a = None) seg.

(** All of [seg] was done in the part [c] of the loop body. *)
Definition in_phase (c : Cause) (seg : list Action) : Prop :=
  Forall (λ a, phase_of a = None ∨ phase_of a = Some c) seg.

(** What holds after start-up and after each completed step of the loop
    body, for the catalogue [media]. *)
Record Inv (media : list string) (s : State) : Prop := mkInv {
  inv_range : idx s < length media;
  inv_index : idx s = advances (trace s) mod length media;
  inv_stamp : last_show (trace s) = Some (last_show_ms s);
  inv_clock : (last_show_ms s ≤ ticks s)%Z;
  inv_dwell : dwell_between gated (trace s)
}.

(** What may differ between two states when nothing was shown: the clock,
    the [running] flag, and "Event:" lines in the log. *)
Definition same_picture (s s' : State) : Prop :=
  idx s' = idx s
  ∧ current_proc s' = current_proc s
  ∧ last_was_video s' = last_was_video s
  ∧ last_show_ms s' = last_show_ms s
  ∧ screen s' = screen s
  ∧ ∃ seg, trace s' = (seg ++ trace s)%list
           ∧ Forall (λ a, is_event_seen a = true) seg.

(** The events that end the loop: window close and the Escape key. *)
Definition is_quit (e : Event) : bool :=
  match e with QUIT | KEYDOWN K_ESCAPE => true | _ => false end.

(** [current_proc and current_proc.poll() is None]: a player is running. *)
Definition has_live_player (s : State) : bool :=
  match current_proc s with
  | Some p => negb (poll p (ticks s))
  | None => false
  end.

(** Every player that is started exits within the two seconds that [show]
    waits after SIGTERM. *)
Definition obedient (env : Env) : Prop :=
  ∀ n, ∃ d, sigterm env n = Some d ∧ (d ≤ 2000)%Z.

(** The handle in [current_proc], if any, belongs to a player that exits
    within two seconds of SIGTERM. *)
Definition handle_obedient (s : State) : Prop :=
  ∀ p, current_proc s = Some p → ∃ d, term_latency p = Some d ∧ (d ≤ 2000)%Z.

(** How the program dies when [Popen.wait] times out: right after the
    SIGTERM, with the player still running. *)
Definition died_waiting (e : exn) (s : State) : Prop :=
  e = TimeoutExpired
  ∧ head (trace s) = Some Terminate
  ∧ ∃ p, current_proc s = Some p ∧ poll p (ticks s) = false.

(** The item at [idx] is what [last_was_video] and a running player say it
    is. *)
Definition flags_match (media : list string) (s : State) : Prop :=
  ∃ p, media !! idx s = Some p
       ∧ last_was_video s = negb (is_image p)
       ∧ (has_live_player s = true → is_image p = false).

(** The same environment, except that every image can be decoded. *)
Definition all_decodable (env : Env) : Env :=
  mkEnv (which env) (λ _, true) (lifetime env) (sigterm env).

(** The picture in place of the red error screen. *)
Definition repaint (a : Action) : Action :=
  match a with ErrorFrame path => DrawImage path | _ => a end.

Definition repainted (s : State) : State :=
  mkState (idx s) (current_proc s) (last_was_video s) (last_show_ms s) (running s)
          (screen s) (ticks s) (spawned s) (repaint <$> trace s).

Definition repainted_outcome (o : Outcome) : Outcome :=
  match o with
  | Ok s => Ok (repainted s)
  | Raise e s => Raise e (repainted s)
  end.

(** [c] occurs in [s]. *)
Fixpoint occurs (c : ascii) (s : string) : bool :=
  match s with
  | "" => false
  | String a r => Ascii.eqb a c || occurs c r
  end.

(** ** Concrete catalogues, environments and inputs *)

Module Scenario.

(** The state an outcome ends in. *)
Definition state_of (o : Outcome) : State :=
  match o with Ok s | Raise _ s => s end.

(** Image, clip, image. *)
Definition media_A : list string :=
  Eval vm_compute in load_media_list ["c_img.png"; "b_clip.mp4"; "a_img.png"].

(** Clip, image, image. *)
Definition media_V : list string :=
  Eval vm_compute in load_media_list ["c_pic.png"; "a_clip.mp4"; "b_pic.png"].

(** A single image. *)
Definition media_1 : list string :=
  Eval vm_compute in load_media_list ["only.png"].

(** omxplayer is installed; every player runs for [life] ms and needs
    [lat] ms to exit after SIGTERM. *)
Definition player (life lat : option Z) : Env :=
  mkEnv (λ name, String.eqb name "omxplayer") (λ _, true) (λ _, life) (λ _, lat).

(** Only the player called [name] is installed. *)
Definition only (name : string) : Env :=
  mkEnv (λ n, String.eqb n name) (λ _, true) (λ _, None) (λ _, Some 100%Z).

(** No video player is installed. *)
Definition no_player : Env :=
  mkEnv (λ _, false) (λ _, true) (λ _, None) (λ _, None).

Definition idle (ms : N) : TickInput := mkTick [] 0 ms.
Definition press (ms : N) : TickInput := mkTick [MOUSEBUTTONDOWN] 0 ms.
Definition touch (ms : N) : TickInput := mkTick [] 1 ms.

(** After start-up on [media_A]: the first image is on screen. *)
Definition booted_A : State :=
  Eval vm_compute in state_of (boot media_A (player (Some 200%Z) (Some 100%Z)) 0).

(** After start-up on [media_V] with a player that does not stop by
    itself: the clip is playing. *)
Definition booted_V : State :=
  Eval vm_compute in state_of (boot media_V (player None (Some 1500%Z)) 0).

(** The same with a clip that ends by itself after 3000 ms. *)
Definition booted_V_ends : State :=
  Eval vm_compute in state_of (boot media_V (player (Some 3000%Z) (Some 100%Z)) 0).

(** The same with a player that neither ends nor reacts to SIGTERM. *)
Definition booted_V_stuck : State :=
  Eval vm_compute in state_of (boot media_V (player None None) 0).

(** A keyboard, a mouse without key capabilities, and two touch screens. *)
Definition keyboard : Evdev.InputDevice :=
  Evdev.mkDevice "/dev/input/event0" "kbd" {[ 1%Z := [30; 31; 32]%Z ]}.
Definition mouse : Evdev.InputDevice :=
  Evdev.mkDevice "/dev/input/event1" "mouse" {[ 2%Z := [0; 1]%Z ]}.
Definition screen_a : Evdev.InputDevice :=
  Evdev.mkDevice "/dev/input/event2" "ft5x06"
    {[ 1%Z := [330]%Z; 3%Z := [0; 1]%Z ]}.
Definition screen_b : Evdev.InputDevice :=
  Evdev.mkDevice "/dev/input/event3" "usb-touch" {[ 1%Z := [272; 330]%Z ]}.

(** After start-up on [media_1]. *)
Definition booted_1 : State :=
  Eval vm_compute in state_of (boot media_1 no_player 0).

End Scenario.

(** * Properties *)

Local Open Scope nat_scope.
Local Open Scope list_scope.

Example splitext_png : Path.splitext_ext "a.PNG" = ".PNG".
Proof. reflexivity. Qed.
Example splitext_hidden : Path.splitext_ext "/media/.png" = "".
Proof. reflexivity. Qed.
Example splitext_dotdir : Path.splitext_ext "/media.d/clip" = "".
Proof. reflexivity. Qed.
Example splitext_two : Path.splitext_ext "/m/..a.tar.gz" = ".gz".
Proof. reflexivity. Qed.
Example splitext_trailing : Path.splitext_ext "a." = ".".
Proof. reflexivity. Qed.

Example load_example :
  load_media_list ["clip1.MP4"; "notes.txt"; "img2.png"; ".png"; "img1.png"]
  = [ "/home/calen/projects/rpi-touch-app/media/clip1.MP4";
      "/home/calen/projects/rpi-touch-app/media/img1.png";
      "/home/calen/projects/rpi-touch-app/media/img2.png" ].
Proof. vm_compute. reflexivity. Qed.

(** Scenario A of the specification: image, clip, image; a press at 1500 ms
    starts the clip, the player exits 1500 ms later, the completion check
    advances and the display is reset before the second image is drawn. *)
Example scenario_A :
  trace (Scenario.state_of
           (main_loop Scenario.media_A (Scenario.player (Some 1500%Z) (Some 100%Z))
              [Scenario.idle 1500; Scenario.press 33; Scenario.idle 1500;
               Scenario.idle 33]
              Scenario.booted_A))
  = [DrawImage "/home/calen/projects/rpi-touch-app/media/c_img.png";
     ResetDisplay; Blackout 50; ShowCalled Completion 2 3033;
     Launch ["omxplayer"; "--no-osd"; "--aspect-mode"; "fill";
             "/home/calen/projects/rpi-touch-app/media/b_clip.mp4"];
     ShowCalled Press 1 1500; EventSeen MOUSEBUTTONDOWN;
     DrawImage "/home/calen/projects/rpi-touch-app/media/a_img.png";
     ShowCalled Start 0 0].
Proof. vm_compute. reflexivity. Qed.

(** Scenario B: of two touch-queue tokens 50 ms apart the first is accepted
    and the second ignored. *)
Example scenario_B :
  let s := Scenario.state_of
             (main_loop Scenario.media_A Scenario.no_player
                [Scenario.idle 1500; Scenario.touch 50; Scenario.touch 33]
                Scenario.booted_A) in
  idx s = 1 ∧ head (trace s) = Some EvdevIgnored.
Proof. vm_compute. done. Qed.

(** Scenario D: with a single item an advance shows it again, and the dwell
    time applies. *)
Example scenario_D :
  trace (Scenario.state_of
           (main_loop Scenario.media_1 Scenario.no_player
              [Scenario.idle 1500; Scenario.press 50; Scenario.press 33]
              Scenario.booted_1))
  = [PressIgnored; EventSeen MOUSEBUTTONDOWN;
     DrawImage "/home/calen/projects/rpi-touch-app/media/only.png";
     ShowCalled Press 0 1500; EventSeen MOUSEBUTTONDOWN;
     DrawImage "/home/calen/projects/rpi-touch-app/media/only.png";
     ShowCalled Start 0 0].
Proof. vm_compute. reflexivity. Qed.

(** ** Traces *)

Section TraceLemmas.

Lemma last_show_effects seg tr : effects seg → last_show (seg ++ tr) = last_show tr.
Proof.
  induction 1 as [|a seg Ha _ IH]; [done|].
  destruct a; simplify_eq/=; done.
Qed.

Lemma advances_effects seg tr : effects seg → advances (seg ++ tr) = advances tr.
Proof.
  induction 1 as [|a seg Ha _ IH]; [done|].
  destruct a; simplify_eq/=; done.
Qed.

Lemma dwell_between_effects g seg tr :
  effects seg → dwell_between g (seg ++ tr) ↔ dwell_between g tr.
Proof.
  induction 1 as [|a seg Ha _ IH]; [done|].
  destruct a; simplify_eq/=; done.
Qed.

Lemma effects_in_phase c seg : effects seg → in_phase c seg.
Proof. intros H. eapply Forall_impl; [exact H|]. simpl. auto. Qed.

Lemma advances_app_le seg tr : advances tr ≤ advances (seg ++ tr).
Proof.
  induction seg as [|a seg IH]; [done|].
  destruct a as [[] ? ?| | | | | | | | | | |]; simpl; lia.
Qed.

Lemma advances_event_seen seg tr :
  Forall (λ a, is_event_seen a = true) seg →
  advances (seg ++ tr) = advances tr.
Proof.
  induction 1 as [|a seg Ha _ IH]; [done|].
  destruct a; simplify_eq/=; done.
Qed.

End TraceLemmas.

(** ** What one call of [show] does *)

Section ShowLemmas.

Variable media : list string.
Variable env : Env.

Lemma wait_monotone p timeout t t' b :
  (0 ≤ timeout)%Z → wait p timeout t = (t', b) → (t ≤ t')%Z.
Proof.
  unfold wait. intros ? Hw.
  destruct (exits_at p) as [e|]; [destruct (Z.leb_spec e (t + timeout))|];
    simplify_eq; lia.
Qed.

(** The "stop any running video" block either does nothing or terminates
    the live process and retires the handle. *)
Lemma stop_running_video_Ok s s1 :
  stop_running_video s = Ok s1 →
  idx s1 = idx s ∧ last_show_ms s1 = last_show_ms s ∧ running s1 = running s
  ∧ screen s1 = screen s ∧ spawned s1 = spawned s
  ∧ (ticks s ≤ ticks s1)%Z
  ∧ ((s1 = s ∧ from_option (λ p, poll p (ticks s)) true (current_proc s) = true)
     ∨ (current_proc s1 = None ∧ last_was_video s1 = true
        ∧ trace s1 = Terminate :: trace s
        ∧ from_option (λ p, poll p (ticks s)) true (current_proc s) = false)).
Proof.
  unfold stop_running_video. intros H.
  destruct (current_proc s) as [p|] eqn:Hp; [|simplify_eq; naive_solver lia].
  destruct (poll p (ticks s)) eqn:Hpoll; [simplify_eq; naive_solver lia|].
  destruct (wait _ _ _) as [t b] eqn:Hw. simpl in Hw.
  apply wait_monotone in Hw as Ht; [|lia].
  destruct b; simplify_eq. simpl. repeat split; try done; try lia.
  right. by rewrite Hpoll.
Qed.

Lemma play_video_spec path s p s1 :
  play_video env path s = (p, s1) →
  idx s1 = idx s ∧ last_show_ms s1 = last_show_ms s ∧ running s1 = running s
  ∧ screen s1 = screen s ∧ ticks s1 = ticks s
  ∧ last_was_video s1 = last_was_video s
  ∧ ((p = None ∧ player_cmd env path = None ∧ trace s1 = NoPlayer :: trace s)
     ∨ (∃ cmd, is_Some p ∧ player_cmd env path = Some cmd
               ∧ trace s1 = Launch cmd :: trace s)).
Proof.
  unfold play_video. destruct (player_cmd env path) as [cmd|]; intros ?;
    simplify_eq/=; naive_solver.
Qed.

(** Everything a completed call of [show] leaves behind. *)
Lemma show_Ok c i s s' :
  show media env c i s = Ok s' →
  ∃ path seg,
    media !! i = Some path
    ∧ idx s' = idx s ∧ running s' = running s
    ∧ last_show_ms s' = ticks s
    ∧ (ticks s ≤ ticks s')%Z
    ∧ last_was_video s' = negb (is_image path)
    ∧ trace s' = seg ++ ShowCalled c i (ticks s) :: trace s
    ∧ effects seg.
Proof.
  unfold show, dbg. destruct (media !! i) as [path|]; [|done].
  simpl. destruct (stop_running_video _) as [s1|] eqn:Hstop; [|done].
  apply stop_running_video_Ok in Hstop
    as (Hi & Hl & Hr & _ & _ & Ht & Hcase). simpl in *.
  assert (∃ seg1, trace s1 = seg1 ++ ShowCalled c i (ticks s) :: trace s
                  ∧ effects seg1) as (seg1 & Htr & Hseg1).
  { destruct Hcase as [[-> _]|(_ & _ & -> & _)].
    - exists []. split; [done|constructor].
    - exists [Terminate]. split; [done|]. by repeat constructor. }
  intros Hshow. exists path.
  destruct (is_image path) eqn:Himg.
  - (* image *)
    unfold display_image, reset_display, blackout in Hshow.
    destruct (last_was_video s1), (decodes env path); simplify_eq/=;
      rewrite Htr;
      [ exists (DrawImage path :: ResetDisplay :: Blackout 50 :: seg1)
      | exists (ErrorFrame path :: ResetDisplay :: Blackout 50 :: seg1)
      | exists (DrawImage path :: seg1)
      | exists (ErrorFrame path :: seg1) ];
      (split_and!; try done; try lia; by repeat constructor).
  - (* video *)
    destruct (play_video env path s1) as [p s2] eqn:Hplay.
    apply play_video_spec in Hplay as (?&?&?&?&?&?&Hp).
    destruct Hp as [(-> & _ & Htr2)|(cmd & [p' ->] & _ & Htr2)];
      simplify_eq/=; rewrite Htr2, Htr.
    + exists (BlackFrame :: Blackout 50 :: NoPlayer :: seg1).
      split_and!; try done; try congruence; try lia. by repeat constructor.
    + exists (Launch cmd :: seg1).
      split_and!; try done; try congruence; try lia. by repeat constructor.
Qed.

End ShowLemmas.

(** ** The loop body, statement by statement *)

Section LoopLemmas.

Variable media : list string.
Variable env : Env.

Lemma advance_Ok c s s' :
  advance media env c s = Ok s' →
  ∃ seg,
    idx s' = (idx s + 1) mod length media
    ∧ idx s' < length media
    ∧ running s' = running s
    ∧ last_show_ms s' = ticks s
    ∧ (ticks s ≤ ticks s')%Z
    ∧ trace s' = seg ++ ShowCalled c (idx s') (ticks s) :: trace s
    ∧ effects seg.
Proof.
  unfold advance. intros H.
  apply show_Ok in H as (path & seg & Hpath & Hi & Hr & Hl & Ht & _ & Htr & Hseg).
  simpl in *. exists seg. rewrite Hi.
  split_and!; try done. by eapply lookup_lt_Some.
Qed.

Lemma advance_Inv c s s' :
  Inv media s → c ≠ Start →
  (gated c = true → (MIN_VIEW_MS ≤ ticks s - last_show_ms s)%Z) →
  advance media env c s = Ok s' → Inv media s'.
Proof.
  intros [Hrange Hidx Hstamp Hclock Hdwell] Hc Hgate H.
  apply advance_Ok in H as (seg & Hi & Hlt & _ & Hl & Ht & Htr & Hseg).
  split; [done|..].
  - rewrite Htr, advances_effects by done.
    transitivity (S (advances (trace s)) mod length media).
    + rewrite Hi, Hidx, Nat.Div0.add_mod_idemp_l. f_equal. lia.
    + by destruct c.
  - by rewrite Htr, last_show_effects, Hl.
  - lia.
  - rewrite Htr, dwell_between_effects by done. simpl. split; [|done].
    intros Hg. exists (last_show_ms s). split; [done|]. by apply Hgate.
Qed.

Lemma Inv_log a s :
  (∀ c i t, a ≠ ShowCalled c i t) → Inv media s → Inv media (log a s).
Proof.
  intros Ha [? ? ? ? ?]. split; simpl; try done;
    destruct a; try done; by edestruct Ha.
Qed.

Lemma handle_event_Inv e s s' :
  Inv media s → handle_event media env e s = Ok s' → Inv media s'.
Proof.
  intros HI. unfold handle_event, dbg.
  assert (Inv media (log (EventSeen e) s)) as HI' by by apply Inv_log.
  destruct e as [|[]| | |]; try (intros; simplify_eq; by destruct HI').
  all: simpl; destruct (Z.leb_spec MIN_VIEW_MS (ticks s - last_show_ms s))
      as [Hle|Hlt]; intros H; [by eapply advance_Inv in H|];
    simplify_eq; by apply Inv_log.
Qed.

Lemma auto_advance_Inv s s' :
  Inv media s → auto_advance media env s = Ok s' → Inv media s'.
Proof.
  intros HI. unfold auto_advance.
  destruct (current_proc s) as [p|]; [|by intros; simplify_eq].
  destruct (poll p (ticks s)); [|by intros; simplify_eq].
  intros H. eapply advance_Inv in H; try done. by destruct HI.
Qed.

Lemma handle_touch_Inv s s' :
  Inv media s → handle_touch media env s = Ok s' → Inv media s'.
Proof.
  intros HI. unfold handle_touch, dbg.
  destruct (Z.leb_spec MIN_VIEW_MS (ticks s - last_show_ms s)) as [Hle|Hlt];
    intros H.
  - by eapply advance_Inv in H.
  - simplify_eq. by apply Inv_log.
Qed.

Lemma boot_Inv t0 s : boot media env t0 = Ok s → Inv media s.
Proof.
  unfold boot. intros H.
  apply show_Ok in H as (path & seg & Hpath & Hi & _ & Hl & Ht & _ & Htr & Hseg).
  simpl in *. apply lookup_lt_Some in Hpath. split.
  - lia.
  - rewrite Htr, advances_effects by done. simpl.
    rewrite Hi. symmetry. apply Nat.Div0.mod_0_l.
  - by rewrite Htr, last_show_effects, Hl.
  - lia.
  - rewrite Htr, dwell_between_effects by done. by simpl.
Qed.

Lemma reachable_Inv s : reachable media env s → Inv media s.
Proof.
  induction 1 as [t0 s H|e s s' _ IH H|s s' _ IH H|s s' _ IH H|d s _ IH Hd].
  - by eapply boot_Inv.
  - by eapply handle_event_Inv.
  - by eapply auto_advance_Inv.
  - by eapply handle_touch_Inv.
  - destruct IH. split; simpl; try done. lia.
Qed.

End LoopLemmas.

(** ** Runs *)

Section Runs.

Variable media : list string.
Variable env : Env.

Lemma handle_events_reachable evs s s' :
  reachable media env s → handle_events media env evs s = Ok s' →
  reachable media env s'.
Proof.
  revert s. induction evs as [|e evs IH]; intros s Hs H; simpl in H.
  - by simplify_eq.
  - destruct (handle_event media env e s) as [s1|] eqn:He; [|done].
    simpl in H. eapply IH; [|done]. by eapply reach_event.
Qed.

Lemma handle_touches_reachable n s s' :
  reachable media env s → handle_touches media env n s = Ok s' →
  reachable media env s'.
Proof.
  revert s. induction n as [|n IH]; intros s Hs H; simpl in H.
  - by simplify_eq.
  - destruct (handle_touch media env s) as [s1|] eqn:He; [|done].
    simpl in H. eapply IH; [|done]. by eapply reach_touch.
Qed.

(** A whole iteration of the loop leads from reachable states to
    reachable states. *)
Lemma tick_reachable inp s s' :
  reachable media env s → tick media env inp s = Ok s' →
  reachable media env s'.
Proof.
  unfold tick. intros Hs H.
  destruct (handle_events _ _ _ _) as [s1|] eqn:H1; [|done]. simpl in H.
  destruct (auto_advance _ _ _) as [s2|] eqn:H2; [|done]. simpl in H.
  destruct (handle_touches _ _ _ _) as [s3|] eqn:H3; [|done]. simpl in H.
  simplify_eq. apply reach_sleep; [|lia].
  eapply handle_touches_reachable; [|done].
  eapply reach_auto; [|done].
  by eapply handle_events_reachable.
Qed.

Lemma shutdown_running s : running (shutdown s) = running s.
Proof.
  unfold shutdown. destruct (current_proc s) as [p|]; [|done].
  by destruct (poll p (ticks s)).
Qed.

(** So does the loop, as long as it has not been left. *)
Lemma main_loop_reachable inps s s' :
  reachable media env s → main_loop media env inps s = Ok s' →
  running s' = true → reachable media env s'.
Proof.
  revert s. induction inps as [|inp inps IH]; intros s Hs H Hrun; simpl in H.
  - destruct (running s) eqn:Hr; simplify_eq; [done|].
    by rewrite shutdown_running, Hr in Hrun.
  - destruct (running s) eqn:Hr.
    + destruct (tick media env inp s) as [s1|] eqn:Ht; [|done]. simpl in H.
      eapply IH; [|done..]. by eapply tick_reachable.
    + simplify_eq. by rewrite shutdown_running, Hr in Hrun.
Qed.

End Runs.

(** ** The index *)



(** ** The dwell time *)

(** C1, as the program has it: between two statements of the loop body,
    every call of [show] made for a press or for a touch-queue token came at
    least [MIN_VIEW_MS] after the call before it; and a press or token that
    comes earlier is dropped, leaving only its log line. *)
Theorem taps_respect_dwell media env s :
  reachable media env s →
  dwell_between gated (trace s)
  ∧ ((ticks s - last_show_ms s < MIN_VIEW_MS)%Z →
     handle_touch media env s = Ok (log EvdevIgnored s)
     ∧ handle_event media env MOUSEBUTTONDOWN s
       = Ok (log PressIgnored (log (EventSeen MOUSEBUTTONDOWN) s))
     ∧ handle_event media env FINGERDOWN s
       = Ok (log PressIgnored (log (EventSeen FINGERDOWN) s))).
Proof.
  intros [_ _ _ _ Hdwell]%reachable_Inv. split; [done|].
  intros Hlt. unfold handle_touch, handle_event, dbg. simpl.
  destruct (Z.leb_spec MIN_VIEW_MS (ticks s - last_show_ms s)); [lia|done].
Qed.

Lemma taps_respect_dwell_witness :
  dwell_between gated (trace Scenario.booted_A)
  ∧ ((ticks Scenario.booted_A - last_show_ms Scenario.booted_A < MIN_VIEW_MS)%Z →
     handle_touch Scenario.media_A (Scenario.player (Some 200%Z) (Some 100%Z))
       Scenario.booted_A
     = Ok (log EvdevIgnored Scenario.booted_A)
     ∧ handle_event Scenario.media_A (Scenario.player (Some 200%Z) (Some 100%Z))
         MOUSEBUTTONDOWN Scenario.booted_A
       = Ok (log PressIgnored (log (EventSeen MOUSEBUTTONDOWN) Scenario.booted_A))
     ∧ handle_event Scenario.media_A (Scenario.player (Some 200%Z) (Some 100%Z))
         FINGERDOWN Scenario.booted_A
       = Ok (log PressIgnored (log (EventSeen FINGERDOWN) Scenario.booted_A))).
Proof.
  apply taps_respect_dwell.
  apply (reach_boot _ _ 0%Z). reflexivity.
Defined.

(** C1 as stated fails: a clip that ends 233 ms after it was started is
    followed by the next item at once. *)
Lemma auto_advance_inside_dwell_window :
  ∃ s,
    main_loop Scenario.media_A (Scenario.player (Some 200%Z) (Some 100%Z))
      [Scenario.idle 1500; Scenario.press 33; Scenario.idle 200; Scenario.idle 33]
      Scenario.booted_A = Ok s
    ∧ reachable Scenario.media_A (Scenario.player (Some 200%Z) (Some 100%Z)) s
    ∧ ¬ dwell_between any_advance (trace s).
Proof.
  eexists. split; [vm_compute; reflexivity|]. split.
  - eapply (main_loop_reachable _ _
              [Scenario.idle 1500; Scenario.press 33; Scenario.idle 200; Scenario.idle 33]
              Scenario.booted_A);
      [|vm_compute; reflexivity|reflexivity].
    apply (reach_boot _ _ 0%Z). reflexivity.
  - simpl. intros [H _]. destruct (H eq_refl) as (t0 & Ht0 & Hle).
    simplify_eq. unfold MIN_VIEW_MS in Hle. lia.
Qed.

(** ** The time stamp of a transition *)

(** C7, as the program has it: [last_show_ms] always is the clock value at
    which the most recent call of [show] began, so it changes with every
    call of [show] and with nothing else; [show] takes the stamp on entry,
    and whatever else it does (terminating the player, resetting the display,
    drawing, launching) comes after it. *)
Theorem show_stamps_entry_time media env s :
  reachable media env s →
  last_show (trace s) = Some (last_show_ms s)
  ∧ ∀ c i s', show media env c i s = Ok s' →
      last_show_ms s' = ticks s
      ∧ (ticks s ≤ ticks s')%Z
      ∧ ∃ seg, trace s' = seg ++ ShowCalled c i (ticks s) :: trace s
               ∧ effects seg.
Proof.
  intros [_ _ Hstamp _ _]%reachable_Inv. split; [done|].
  intros c i s' (path & seg & _ & _ & _ & Hl & Ht & _ & Htr & Hseg)%show_Ok.
  eauto 10.
Qed.

Lemma show_stamps_entry_time_witness :
  last_show (trace Scenario.booted_V) = Some (last_show_ms Scenario.booted_V)
  ∧ ∀ c i s',
      show Scenario.media_V (Scenario.player None (Some 1500%Z)) c i
        Scenario.booted_V = Ok s' →
      last_show_ms s' = ticks Scenario.booted_V
      ∧ (ticks Scenario.booted_V ≤ ticks s')%Z
      ∧ ∃ seg, trace s' = seg ++ ShowCalled c i (ticks Scenario.booted_V)
                                 :: trace Scenario.booted_V
               ∧ effects seg.
Proof.
  apply show_stamps_entry_time.
  apply (reach_boot _ _ 0%Z). reflexivity.
Defined.

(** C7 as stated fails: a press at 3000 ms ends a clip whose player needs
    1500 ms to exit; when [show] returns the clock is at 4550 ms, after the
    wait and the blackout, and the stamp is 3000 ms. *)
Lemma stamp_is_not_the_last_step :
  ∃ s1 s2,
    tick Scenario.media_V (Scenario.player None (Some 1500%Z))
      (Scenario.idle 3000) Scenario.booted_V = Ok s1
    ∧ show Scenario.media_V (Scenario.player None (Some 1500%Z)) Press 1
        (set_idx 1 s1) = Ok s2
    ∧ ticks s1 = 3000%Z
    ∧ ticks s2 = 4550%Z
    ∧ last_show_ms s2 = 3000%Z
    ∧ last_show_ms s2 ≠ ticks s2
    ∧ trace s2
      = [DrawImage "/home/calen/projects/rpi-touch-app/media/b_pic.png";
         ResetDisplay; Blackout 50; Terminate; ShowCalled Press 1 3000]
        ++ trace s1.
Proof.
  do 2 eexists. split; [vm_compute; reflexivity|].
  split; [vm_compute; reflexivity|].
  simpl. split_and!; done.
Qed.

(** ** The order of the loop body *)

Section Phases.

Variable media : list string.
Variable env : Env.

Lemma in_phase_app c seg1 seg2 :
  in_phase c seg1 → in_phase c seg2 → in_phase c (seg1 ++ seg2).
Proof. unfold in_phase. rewrite Forall_app. auto. Qed.

Lemma in_phase_cons c a seg :
  phase_of a = Some c → in_phase c seg → in_phase c (a :: seg).
Proof. intros Ha Hseg. apply Forall_cons. split; [by right|done]. Qed.

Lemma in_phase_nil c : in_phase c [].
Proof. constructor. Qed.

(** What an advance adds to the trace: the call of [show] and its effects. *)
Lemma advance_segment c s s' :
  c ≠ Start →
  advance media env c s = Ok s' →
  ∃ seg, trace s' = seg ++ trace s ∧ in_phase c seg ∧ advances seg = 1.
Proof.
  intros Hc (seg & _ & _ & _ & _ & _ & Htr & Hseg)%advance_Ok.
  exists (seg ++ [ShowCalled c (idx s') (ticks s)]). split_and!.
  - by rewrite <-app_assoc.
  - apply in_phase_app; [by apply effects_in_phase|].
    by apply in_phase_cons, in_phase_nil.
  - rewrite advances_effects by done. by destruct c.
Qed.

Lemma handle_event_segment e s s' :
  handle_event media env e s = Ok s' →
  ∃ seg, trace s' = seg ++ trace s ∧ in_phase Press seg.
Proof.
  unfold handle_event, dbg.
  assert (in_phase Press [EventSeen e]) as He
    by by apply in_phase_cons, in_phase_nil.
  assert (in_phase Press [PressIgnored; EventSeen e]) as Hi
    by by apply in_phase_cons.
  destruct e as [|[]| | |]; try (intros; simplify_eq; by exists [EventSeen e]);
    try (intros; simplify_eq; by eexists [EventSeen _]).
  all: simpl; destruct (_ <=? _)%Z; intros H;
    [|simplify_eq; by eexists [PressIgnored; EventSeen _]].
  all: apply advance_segment in H as (seg & Htr & Hseg & _); [|done];
    simpl in Htr; eexists (seg ++ [EventSeen _]);
    (split; [by rewrite <-app_assoc|]);
    by apply in_phase_app.
Qed.

Lemma handle_events_segment evs s s' :
  handle_events media env evs s = Ok s' →
  ∃ seg, trace s' = seg ++ trace s ∧ in_phase Press seg.
Proof.
  revert s. induction evs as [|e evs IH]; intros s H; simpl in H.
  - simplify_eq. exists []. split; [done|constructor].
  - destruct (handle_event media env e s) as [s1|] eqn:He; [|done].
    simpl in H. apply handle_event_segment in He as (seg1 & Htr1 & Hseg1).
    apply IH in H as (seg2 & Htr2 & Hseg2).
    exists (seg2 ++ seg1). split; [by rewrite Htr2, Htr1, app_assoc|].
    by apply in_phase_app.
Qed.

Lemma auto_advance_segment s s' :
  auto_advance media env s = Ok s' →
  ∃ seg, trace s' = seg ++ trace s ∧ in_phase Completion seg
         ∧ advances seg ≤ 1.
Proof.
  unfold auto_advance.
  assert (∃ seg, trace s = seg ++ trace s ∧ in_phase Completion seg
                 ∧ advances seg ≤ 1) as Hnil.
  { exists []. split_and!; [done|constructor|simpl; lia]. }
  destruct (current_proc s) as [p|]; [|by intros; simplify_eq].
  destruct (poll p (ticks s)); [|by intros; simplify_eq].
  intros (seg & Htr & Hseg & Hn)%advance_segment; [|done].
  exists seg. split_and!; [done..|lia].
Qed.

Lemma handle_touch_segment s s' :
  handle_touch media env s = Ok s' →
  ∃ seg, trace s' = seg ++ trace s ∧ in_phase Evdev seg.
Proof.
  unfold handle_touch, dbg. destruct (_ <=? _)%Z; intros H.
  - apply advance_segment in H as (seg & Htr & Hseg & _); [|done]. eauto.
  - simplify_eq. exists [EvdevIgnored]. split; [done|].
    by apply in_phase_cons, in_phase_nil.
Qed.

Lemma handle_touches_segment n s s' :
  handle_touches media env n s = Ok s' →
  ∃ seg, trace s' = seg ++ trace s ∧ in_phase Evdev seg.
Proof.
  revert s. induction n as [|n IH]; intros s H; simpl in H.
  - simplify_eq. exists []. split; [done|constructor].
  - destruct (handle_touch media env s) as [s1|] eqn:He; [|done].
    simpl in H. apply handle_touch_segment in He as (seg1 & Htr1 & Hseg1).
    apply IH in H as (seg2 & Htr2 & Hseg2).
    exists (seg2 ++ seg1). split; [by rewrite Htr2, Htr1, app_assoc|].
    by apply in_phase_app.
Qed.

End Phases.

(** C3, as the program has it: what one iteration of the loop adds to the
    trace is, in the order of time, first what the display events caused,
    then what the video-completion check caused, then what the touch-queue
    tokens caused; the completion check advances at most once. *)
Theorem tick_phases media env inp s s' :
  tick media env inp s = Ok s' →
  ∃ ev cp q,
    trace s' = q ++ cp ++ ev ++ trace s
    ∧ in_phase Press ev
    ∧ in_phase Completion cp
    ∧ in_phase Evdev q
    ∧ advances cp ≤ 1.
Proof.
  unfold tick. intros H.
  destruct (handle_events _ _ _ _) as [s1|] eqn:H1; [|done]. simpl in H.
  destruct (auto_advance _ _ _) as [s2|] eqn:H2; [|done]. simpl in H.
  destruct (handle_touches _ _ _ _) as [s3|] eqn:H3; [|done]. simpl in H.
  simplify_eq.
  apply handle_events_segment in H1 as (ev & Hev & ?).
  apply auto_advance_segment in H2 as (cp & Hcp & ? & ?).
  apply handle_touches_segment in H3 as (q & Hq & ?).
  exists ev, cp, q. simpl. by rewrite Hq, Hcp, Hev.
Qed.

Lemma tick_phases_witness :
  ∃ ev cp q,
    trace (Scenario.state_of
             (tick Scenario.media_A (Scenario.player (Some 200%Z) (Some 100%Z))
                (Scenario.press 33) Scenario.booted_A))
    = q ++ cp ++ ev ++ trace Scenario.booted_A
    ∧ in_phase Press ev
    ∧ in_phase Completion cp
    ∧ in_phase Evdev q
    ∧ advances cp ≤ 1.
Proof.
  apply (tick_phases Scenario.media_A (Scenario.player (Some 200%Z) (Some 100%Z))
           (Scenario.press 33)).
  vm_compute. reflexivity.
Defined.

(** C3 as stated fails on both counts.  First: a clip has ended and one
    token is in the touch queue, 1533 ms after the clip was shown; the
    completion check advances first and the token, checked after it, is
    ignored.  Second: two presses come in one batch while a clip plays whose
    player needs 1500 ms to exit; both are accepted in the same iteration. *)
Lemma completion_before_queue_and_two_advances :
  (∃ s s',
     main_loop Scenario.media_A (Scenario.player (Some 1500%Z) (Some 100%Z))
       [Scenario.idle 1500; Scenario.press 33; Scenario.idle 1500]
       Scenario.booted_A = Ok s
     ∧ (MIN_VIEW_MS ≤ ticks s - last_show_ms s)%Z
     ∧ tick Scenario.media_A (Scenario.player (Some 1500%Z) (Some 100%Z))
         (Scenario.touch 33) s = Ok s'
     ∧ trace s'
       = [EvdevIgnored;
          DrawImage "/home/calen/projects/rpi-touch-app/media/c_img.png";
          ResetDisplay; Blackout 50; ShowCalled Completion 2 3033]
         ++ trace s)
  ∧ (∃ s s',
       tick Scenario.media_V (Scenario.player None (Some 1500%Z))
         (Scenario.idle 3000) Scenario.booted_V = Ok s
       ∧ tick Scenario.media_V (Scenario.player None (Some 1500%Z))
           (mkTick [MOUSEBUTTONDOWN; MOUSEBUTTONDOWN] 0 33) s = Ok s'
       ∧ advances (trace s') = advances (trace s) + 2).
Proof.
  split.
  - do 2 eexists. split; [vm_compute; reflexivity|].
    split; [vm_compute; discriminate|].
    split; [vm_compute; reflexivity|reflexivity].
  - do 2 eexists. split; [vm_compute; reflexivity|].
    split; [vm_compute; reflexivity|reflexivity].
Qed.

(** ** The display reset *)

(** C2 fails on the program: a clip ends by itself at 3000 ms and a press
    arrives in the same iteration.  The press shows the first image; [show]
    leaves the handle of the ended player in [current_proc]; the completion
    check then finds it, sets [last_was_video] and advances again, so the
    step from the first image to the second image resets the display. *)
Theorem image_to_image_reset :
  ∃ s s',
    tick Scenario.media_V (Scenario.player (Some 3000%Z) (Some 100%Z))
      (Scenario.idle 3000) Scenario.booted_V_ends = Ok s
    ∧ tick Scenario.media_V (Scenario.player (Some 3000%Z) (Some 100%Z))
        (Scenario.press 33) s = Ok s'
    ∧ is_image <$> Scenario.media_V !! 1 = Some true
    ∧ is_image <$> Scenario.media_V !! 2 = Some true
    ∧ trace s'
      = [DrawImage "/home/calen/projects/rpi-touch-app/media/c_pic.png";
         ResetDisplay; Blackout 50; ShowCalled Completion 2 3050;
         DrawImage "/home/calen/projects/rpi-touch-app/media/b_pic.png";
         ResetDisplay; Blackout 50; ShowCalled Press 1 3000;
         EventSeen MOUSEBUTTONDOWN]
        ++ trace s.
Proof.
  do 2 eexists. split; [vm_compute; reflexivity|].
  split; [vm_compute; reflexivity|].
  split; [vm_compute; reflexivity|].
  split; [vm_compute; reflexivity|reflexivity].
Qed.

Local Ltac reset_in_segment :=
  rewrite ?elem_of_cons, ?elem_of_nil; intuition (congruence || auto).

(** Apart from that, [show] resets the display exactly when it is about to
    draw an image and either [last_was_video] is set or it has just stopped
    a live player. *)
Lemma show_resets_iff media env c i s s' p :
  media !! i = Some p →
  show media env c i s = Ok s' →
  ∃ seg,
    trace s' = seg ++ ShowCalled c i (ticks s) :: trace s
    ∧ (ResetDisplay ∈ seg
       ↔ is_image p = true
         ∧ (last_was_video s = true
            ∨ from_option (λ q, poll q (ticks s)) true (current_proc s) = false)).
Proof.
  intros Hpath. unfold show, dbg. rewrite Hpath. simpl.
  destruct (stop_running_video _) as [s1|] eqn:Hstop; [|done]. simpl.
  apply stop_running_video_Ok in Hstop as (_ & _ & _ & _ & _ & _ & Hcase).
  simpl in Hcase.
  destruct (is_image p).
  - unfold display_image, reset_display, blackout.
    destruct Hcase as [[-> Hdead]|(_ & Hlwv & Htr & Hlive)].
    + simpl. destruct (last_was_video s) eqn:Hl, (decodes env p);
        intros ?; simplify_eq/=;
        [ exists [DrawImage p; ResetDisplay; Blackout 50]
        | exists [ErrorFrame p; ResetDisplay; Blackout 50]
        | exists [DrawImage p]
        | exists [ErrorFrame p] ];
        (split; [done|]); rewrite Hdead; reset_in_segment.
    + rewrite Hlwv. destruct (decodes env p); intros ?; simplify_eq/=;
        rewrite Htr;
        [ exists [DrawImage p; ResetDisplay; Blackout 50; Terminate]
        | exists [ErrorFrame p; ResetDisplay; Blackout 50; Terminate] ];
        (split; [done|]); rewrite Hlive; reset_in_segment.
  - unfold play_video.
    destruct Hcase as [[-> Hdead]|(_ & Hlwv & Htr & Hlive)];
      destruct (player_cmd env p) as [cmd|]; intros ?; simplify_eq/=;
      rewrite ?Htr.
    + exists [Launch cmd]. split; [done|]. reset_in_segment.
    + exists [BlackFrame; Blackout 50; NoPlayer]. split; [done|]. reset_in_segment.
    + exists [Launch cmd; Terminate]. split; [done|]. reset_in_segment.
    + exists [BlackFrame; Blackout 50; NoPlayer; Terminate]. split; [done|].
      reset_in_segment.
Qed.

(** ** Terminating the player *)

(** C4 fails on the program: the player does not exit within 2000 ms of
    SIGTERM; [wait(timeout=2)] raises [TimeoutExpired], nothing catches it,
    and it leaves [show], the loop and [main], with the handle still in
    [current_proc]. *)
Theorem terminate_timeout_raises :
  ∃ s s',
    tick Scenario.media_V (Scenario.player None None)
      (Scenario.idle 3000) Scenario.booted_V_stuck = Ok s
    ∧ handle_event Scenario.media_V (Scenario.player None None) MOUSEBUTTONDOWN s
      = Raise TimeoutExpired s'
    ∧ main_loop Scenario.media_V (Scenario.player None None)
        [Scenario.idle 3000; Scenario.press 33; Scenario.idle 33]
        Scenario.booted_V_stuck
      = Raise TimeoutExpired s'
    ∧ is_Some (current_proc s')
    ∧ ticks s' = 5000%Z
    ∧ trace s' = [Terminate; ShowCalled Press 1 3000; EventSeen MOUSEBUTTONDOWN]
                 ++ trace s.
Proof.
  do 2 eexists. split; [vm_compute; reflexivity|].
  split; [vm_compute; reflexivity|].
  split; [vm_compute; reflexivity|].
  split_and!; [by eexists|done..].
Qed.

(** Whenever the player outlives the two seconds, [show] ends with the
    exception. *)
Lemma show_raises_on_timeout media env c i s p path :
  media !! i = Some path →
  current_proc s = Some p →
  poll p (ticks s) = false →
  (wait (terminate p (ticks s)) 2000 (ticks s)).2 = false →
  ∃ s', show media env c i s = Raise TimeoutExpired s'
        ∧ is_Some (current_proc s')
        ∧ trace s' = Terminate :: ShowCalled c i (ticks s) :: trace s.
Proof.
  intros Hpath Hp Hpoll Hw. unfold show, dbg. rewrite Hpath.
  unfold stop_running_video. simpl. rewrite Hp, Hpoll.
  destruct (wait _ _ _) as [t b]. simpl in Hw. subst b. simpl.
  eexists. split; [done|]. simpl. split; [by eexists|done].
Qed.

(** ** Launching a player *)

Section Launch.

Variable media : list string.
Variable env : Env.

(** With no live player to stop, the "stop any running video" block
    changes nothing. *)
Lemma stop_running_video_idle s :
  from_option (λ p, poll p (ticks s)) true (current_proc s) = true →
  stop_running_video s = Ok s.
Proof.
  unfold stop_running_video. destruct (current_proc s) as [p|]; [|done].
  simpl. by intros ->.
Qed.

(** [show] on a clip when no player can be found. *)
Lemma show_video_no_player c i s s' path :
  media !! i = Some path → is_image path = false →
  player_cmd env path = None →
  show media env c i s = Ok s' →
  current_proc s' = None
  ∧ last_was_video s' = true
  ∧ idx s' = idx s
  ∧ ∃ seg, trace s' = BlackFrame :: Blackout 50 :: NoPlayer :: seg
                      ++ ShowCalled c i (ticks s) :: trace s
           ∧ effects seg.
Proof.
  intros Hpath Himg Hcmd. unfold show, dbg. rewrite Hpath. simpl.
  destruct (stop_running_video _) as [s1|] eqn:Hstop; [|done]. simpl.
  rewrite Himg. unfold play_video. rewrite Hcmd. intros ?; simplify_eq/=.
  apply stop_running_video_Ok in Hstop as (Hi & _ & _ & _ & _ & _ & Hcase).
  split_and!; [done..|].
  destruct Hcase as [[-> _]|(_ & _ & -> & _)].
  - exists []. split; [done|constructor].
  - exists [Terminate]. split; [done|]. by repeat constructor.
Qed.

(** [show] on an image right after a clip: the display is reset first. *)
Lemma show_image_after_video c j s img :
  media !! j = Some img → is_image img = true →
  current_proc s = None → last_was_video s = true →
  ∃ s' a,
    show media env c j s = Ok s'
    ∧ (a = DrawImage img ∨ a = ErrorFrame img)
    ∧ trace s' = a :: ResetDisplay :: Blackout 50
                   :: ShowCalled c j (ticks s) :: trace s.
Proof.
  intros Hpath Himg Hproc Hlwv. unfold show, dbg. rewrite Hpath. simpl.
  rewrite stop_running_video_idle by (simpl; by rewrite Hproc). simpl.
  rewrite Himg, Hlwv. unfold display_image.
  destruct (decodes env img); eexists _, _; (split; [done|]); simpl; eauto.
Qed.

(** [show] on a clip when a player is found. *)
Lemma show_video_launch c i s s' path cmd :
  media !! i = Some path → is_image path = false →
  player_cmd env path = Some cmd →
  show media env c i s = Ok s' →
  head (trace s') = Some (Launch cmd)
  ∧ is_Some (current_proc s')
  ∧ last_was_video s' = true
  ∧ spawned s' = S (spawned s).
Proof.
  intros Hpath Himg Hcmd. unfold show, dbg. rewrite Hpath. simpl.
  destruct (stop_running_video _) as [s1|] eqn:Hstop; [|done]. simpl.
  rewrite Himg. unfold play_video. rewrite Hcmd. intros ?; simplify_eq/=.
  apply stop_running_video_Ok in Hstop as (_ & _ & _ & _ & Hsp & _).
  split_and!; [done|by eexists|done|by rewrite Hsp].
Qed.

End Launch.

(** C6: [play_video] starts omxplayer if it is installed, otherwise cvlc if
    that is installed, otherwise mpv, each with its own arguments, and
    returns the handle of the process; [show] on a clip then ends with that
    launch and with the handle in [current_proc].  With none of the three
    [play_video] starts nothing and returns [None]; [show] then does not
    raise, puts up the black frame, leaves [current_proc] empty (so the
    completion check starts nothing) and sets [last_was_video], and an image
    shown next has the display reset before it is drawn. *)
Theorem video_without_player media env path :
  (∀ cmd,
     (which env "omxplayer" = true
      ∧ cmd = ["omxplayer"; "--no-osd"; "--aspect-mode"; "fill"; path])
     ∨ (which env "omxplayer" = false ∧ which env "cvlc" = true
        ∧ cmd = ["cvlc"; "--fullscreen"; "--no-video-title-show";
                 "--play-and-exit"; path])
     ∨ (which env "omxplayer" = false ∧ which env "cvlc" = false
        ∧ which env "mpv" = true
        ∧ cmd = ["mpv"; "--fs"; "--quiet"; path]) →
     (∀ s, play_video env path s
           = (Some (mkPopen ((λ d, ticks s + d)%Z <$> lifetime env (spawned s))
                            (sigterm env (spawned s))),
              set_spawned (S (spawned s)) (log (Launch cmd) s)))
     ∧ (∀ c i s s',
          media !! i = Some path → is_image path = false →
          show media env c i s = Ok s' →
          head (trace s') = Some (Launch cmd)
          ∧ is_Some (current_proc s')
          ∧ last_was_video s' = true
          ∧ spawned s' = S (spawned s)))
  ∧ (which env "omxplayer" = false → which env "cvlc" = false →
     which env "mpv" = false →
     player_cmd env path = None
     ∧ (∀ s, play_video env path s = (None, log NoPlayer s))
     ∧ ∀ c i s,
         media !! i = Some path → is_image path = false →
         (from_option (λ p, poll p (ticks s)) true (current_proc s) = true →
          ∃ s', show media env c i s = Ok s')
         ∧ ∀ s', show media env c i s = Ok s' →
             current_proc s' = None
             ∧ last_was_video s' = true
             ∧ idx s' = idx s
             ∧ (∃ seg, trace s' = BlackFrame :: Blackout 50 :: NoPlayer :: seg
                                  ++ ShowCalled c i (ticks s) :: trace s
                       ∧ effects seg)
             ∧ auto_advance media env s' = Ok s'
             ∧ ∀ c' j img,
                 media !! j = Some img → is_image img = true →
                 ∃ s'' a,
                   show media env c' j s' = Ok s''
                   ∧ (a = DrawImage img ∨ a = ErrorFrame img)
                   ∧ trace s'' = a :: ResetDisplay :: Blackout 50
                                   :: ShowCalled c' j (ticks s') :: trace s').
Proof.
  split.
  - intros cmd Hcmd.
    assert (player_cmd env path = Some cmd) as Hp.
    { unfold player_cmd.
      destruct Hcmd as [(-> & ->)|[(-> & -> & ->)|(-> & -> & -> & ->)]]; done. }
    split.
    + intros s. unfold play_video. by rewrite Hp.
    + intros c i s s' Hpath Himg Hshow. by eapply show_video_launch.
  - intros Ho Hc Hm.
    assert (player_cmd env path = None) as Hcmd
      by (unfold player_cmd; by rewrite Ho, Hc, Hm).
    split; [done|]. split.
    { intros s. unfold play_video. by rewrite Hcmd. }
    intros c i s Hpath Himg. split.
    + intros Hidle. unfold show, dbg. rewrite Hpath. simpl.
      rewrite stop_running_video_idle by done. simpl.
      rewrite Himg. unfold play_video. rewrite Hcmd. eauto.
    + intros s' Hshow.
      destruct (show_video_no_player media env c i s s' path)
        as (Hproc & Hlwv & Hidx & Hseg); [done..|].
      split_and!; [done..| |].
      * unfold auto_advance. by rewrite Hproc.
      * intros c' j img Hj Hi. by apply show_image_after_video.
Qed.

Lemma video_without_player_witness :
  (play_video (Scenario.only "omxplayer") "clip.mp4" Scenario.booted_A
   = (Some (mkPopen None (Some 100%Z)),
      set_spawned 1
        (log (Launch ["omxplayer"; "--no-osd"; "--aspect-mode"; "fill"; "clip.mp4"])
           Scenario.booted_A)))
  ∧ (play_video (Scenario.only "cvlc") "clip.mp4" Scenario.booted_A
     = (Some (mkPopen None (Some 100%Z)),
        set_spawned 1
          (log (Launch ["cvlc"; "--fullscreen"; "--no-video-title-show";
                        "--play-and-exit"; "clip.mp4"])
             Scenario.booted_A)))
  ∧ (play_video (Scenario.only "mpv") "clip.mp4" Scenario.booted_A
     = (Some (mkPopen None (Some 100%Z)),
        set_spawned 1
          (log (Launch ["mpv"; "--fs"; "--quiet"; "clip.mp4"]) Scenario.booted_A)))
  ∧ player_cmd Scenario.no_player
      "/home/calen/projects/rpi-touch-app/media/b_clip.mp4" = None
  ∧ ∃ s', show Scenario.media_A Scenario.no_player Press 1
            (set_idx 1 Scenario.booted_A) = Ok s'
          ∧ current_proc s' = None
          ∧ last_was_video s' = true
          ∧ auto_advance Scenario.media_A Scenario.no_player s' = Ok s'.
Proof.
  split.
  { destruct (video_without_player [] (Scenario.only "omxplayer") "clip.mp4")
      as (H & _).
    destruct (H ["omxplayer"; "--no-osd"; "--aspect-mode"; "fill"; "clip.mp4"])
      as (Hplay & _); [left; split; reflexivity|].
    apply (Hplay Scenario.booted_A). }
  split.
  { destruct (video_without_player [] (Scenario.only "cvlc") "clip.mp4")
      as (H & _).
    destruct (H ["cvlc"; "--fullscreen"; "--no-video-title-show";
                 "--play-and-exit"; "clip.mp4"])
      as (Hplay & _); [right; left; split_and!; reflexivity|].
    apply (Hplay Scenario.booted_A). }
  split.
  { destruct (video_without_player [] (Scenario.only "mpv") "clip.mp4")
      as (H & _).
    destruct (H ["mpv"; "--fs"; "--quiet"; "clip.mp4"])
      as (Hplay & _); [right; right; split_and!; reflexivity|].
    apply (Hplay Scenario.booted_A). }
  destruct (video_without_player Scenario.media_A Scenario.no_player
              "/home/calen/projects/rpi-touch-app/media/b_clip.mp4")
    as (_ & H).
  destruct (H eq_refl eq_refl eq_refl) as (Hcmd & _ & Hshow).
  split; [exact Hcmd|].
  destruct (Hshow Press 1 (set_idx 1 Scenario.booted_A) eq_refl eq_refl)
    as [Hex Hprops].
  destruct (Hex eq_refl) as [s' Hs'].
  exists s'. destruct (Hprops s' Hs') as (? & ? & _ & _ & ? & _). auto.
Defined.

(** ** A clip that could not be started *)

Section NoPlayer.

Variable media : list string.
Variable env : Env.

Lemma same_picture_refl s : same_picture s s.
Proof. split_and!; try done. exists []. split; [done|constructor]. Qed.

Lemma same_picture_trans s1 s2 s3 :
  same_picture s1 s2 → same_picture s2 s3 → same_picture s1 s3.
Proof.
  intros (?&?&?&?&?&seg1&Htr1&?) (?&?&?&?&?&seg2&Htr2&?).
  split_and!; try congruence.
  exists (seg2 ++ seg1). split; [by rewrite Htr2, Htr1, app_assoc|].
  by apply Forall_app.
Qed.

Lemma handle_events_quiet evs s :
  forallb (λ e, negb (is_press e)) evs = true →
  ∃ s', handle_events media env evs s = Ok s' ∧ same_picture s s'.
Proof.
  revert s. induction evs as [|e evs IH]; intros s Hq; simpl in *.
  - eauto using same_picture_refl.
  - apply andb_prop in Hq as [He Hq].
    assert (∃ s1, handle_event media env e s = Ok s1 ∧ same_picture s s1)
      as (s1 & -> & Hs1).
    { unfold handle_event, dbg.
      destruct e as [|[]| | |]; try done; eexists; (split; [done|]);
        (split_and!; try done); eexists [EventSeen _];
        (split; [done|]); by repeat constructor. }
    simpl. destruct (IH s1 Hq) as (s' & -> & Hs').
    eauto using same_picture_trans.
Qed.

Lemma tick_quiet inp s :
  quiet inp = true → current_proc s = None →
  ∃ s', tick media env inp s = Ok s' ∧ same_picture s s'.
Proof.
  unfold quiet, tick. intros [Hev Hq%Nat.eqb_eq]%andb_prop Hproc.
  destruct (handle_events_quiet (events inp) s Hev) as (s1 & -> & Hs1).
  simpl. unfold auto_advance.
  destruct Hs1 as (?&Hp1&?&?&?&?). rewrite Hp1, Hproc, Hq. simpl.
  eexists. split; [done|]. split_and!; simpl; try congruence.
Qed.

Lemma main_loop_quiet inps s :
  forallb quiet inps = true → current_proc s = None →
  ∃ s', main_loop media env inps s = Ok s' ∧ same_picture s s'.
Proof.
  revert s. induction inps as [|inp inps IH]; intros s Hq Hproc; simpl in *.
  - unfold shutdown. rewrite Hproc.
    destruct (running s); eauto using same_picture_refl.
  - apply andb_prop in Hq as [Hinp Hq].
    destruct (running s).
    + destruct (tick_quiet inp s Hinp Hproc) as (s1 & -> & Hs1). simpl.
      destruct (IH s1 Hq) as (s' & -> & Hs').
      { destruct Hs1 as (_ & -> & _). done. }
      eauto using same_picture_trans.
    + unfold shutdown. rewrite Hproc. eauto using same_picture_refl.
Qed.

End NoPlayer.

(** C8: after [show] on a clip for which no player was found there is no
    handle, so the completion check does nothing; however many iterations
    of the loop pass without a press and without a touch token, the index,
    the flags, the time stamp and the display stay as they are and nothing
    is shown; a press or token that passes the dwell check advances. *)
Theorem spawn_failure_waits_for_a_tap media env c i s s' path :
  media !! i = Some path → is_image path = false →
  player_cmd env path = None →
  show media env c i s = Ok s' →
  current_proc s' = None
  ∧ auto_advance media env s' = Ok s'
  ∧ (∀ inps, forallb quiet inps = true →
       ∃ s'', main_loop media env inps s' = Ok s''
              ∧ same_picture s' s''
              ∧ advances (trace s'') = advances (trace s'))
  ∧ (∀ s'', (MIN_VIEW_MS ≤ ticks s'' - last_show_ms s'')%Z →
       handle_touch media env s'' = advance media env Evdev s''
       ∧ handle_event media env MOUSEBUTTONDOWN s''
         = advance media env Press (log (EventSeen MOUSEBUTTONDOWN) s'')).
Proof.
  intros Hpath Himg Hcmd Hshow.
  destruct (show_video_no_player media env c i s s' path)
    as (Hproc & _); [done..|].
  split_and!; [done| | |].
  - unfold auto_advance. by rewrite Hproc.
  - intros inps Hq.
    destruct (main_loop_quiet media env inps s' Hq Hproc) as (s'' & Hrun & Hsame).
    exists s''. split_and!; [done..|].
    destruct Hsame as (_&_&_&_&_&seg&->&Hseg).
    by apply advances_event_seen.
  - intros s'' Hd. unfold handle_touch, handle_event, dbg. simpl.
    by destruct (Z.leb_spec MIN_VIEW_MS (ticks s'' - last_show_ms s'')); [|lia].
Qed.

Lemma spawn_failure_waits_for_a_tap_witness :
  ∃ s'', main_loop Scenario.media_A Scenario.no_player
           [Scenario.idle 5000; mkTick [KEYDOWN K_other; OtherEvent] 0 33;
            Scenario.idle 60000]
           (Scenario.state_of
              (show Scenario.media_A Scenario.no_player Press 1
                 (set_idx 1 Scenario.booted_A))) = Ok s''
         ∧ same_picture
             (Scenario.state_of
                (show Scenario.media_A Scenario.no_player Press 1
                   (set_idx 1 Scenario.booted_A))) s''
         ∧ advances (trace s'') = 1.
Proof.
  destruct (spawn_failure_waits_for_a_tap Scenario.media_A Scenario.no_player
              Press 1 (set_idx 1 Scenario.booted_A)
              (Scenario.state_of
                 (show Scenario.media_A Scenario.no_player Press 1
                    (set_idx 1 Scenario.booted_A)))
              "/home/calen/projects/rpi-touch-app/media/b_clip.mp4")
    as (_ & _ & H & _); [reflexivity..|].
  apply H. reflexivity.
Defined.

(** ** Paths and extensions *)

Section PathLemmas.

Import Path.

Lemma after_last_app c a b :
  after_last c (a +:+ b)
  = match after_last c b with
    | Some t => Some t
    | None => (λ t, t +:+ b) <$> after_last c a
    end.
Proof.
  induction a as [|x a IH]; simpl.
  - change ("" +:+ b) with b. by destruct (after_last c b).
  - change (String x a +:+ b) with (String x (a +:+ b)). simpl. rewrite IH.
    destruct (after_last c b) as [t|]; [done|].
    destruct (after_last c a) as [t|]; [done|]. simpl.
    by destruct (Ascii.eqb x c).
Qed.

Lemma basename_media_dir f : basename (MEDIA_DIR +:+ f) = basename f.
Proof.
  unfold basename. rewrite after_last_app.
  by destruct (after_last "/" f).
Qed.

Lemma join_media_dir f :
  join MEDIA_DIR f = if startswith_sep f then f else MEDIA_DIR +:+ f.
Proof. unfold join. by destruct (startswith_sep f). Qed.

(** The extension seen by [show] on the path is the one seen by
    [load_media_list] on the file name. *)
Lemma splitext_join f :
  splitext_ext (join MEDIA_DIR f) = splitext_ext f.
Proof.
  rewrite join_media_dir. destruct (startswith_sep f); [done|].
  unfold splitext_ext. by rewrite basename_media_dir.
Qed.

Lemma isabs_join f : isabs (join MEDIA_DIR f) = true.
Proof.
  rewrite join_media_dir. unfold isabs.
  by destruct (startswith_sep f) eqn:Hf.
Qed.

Lemma lower_ascii_eqb_dot a : Ascii.eqb (lower_ascii a) "." = Ascii.eqb a ".".
Proof. by destruct a as [[] [] [] [] [] [] [] []]. Qed.

Lemma lower_ascii_eqb_sep a : Ascii.eqb (lower_ascii a) "/" = Ascii.eqb a "/".
Proof. by destruct a as [[] [] [] [] [] [] [] []]. Qed.

Lemma after_last_lower c s :
  (∀ a, Ascii.eqb (lower_ascii a) c = Ascii.eqb a c) →
  after_last c (lower s) = lower <$> after_last c s.
Proof.
  intros Hc. induction s as [|a s IH]; [done|]. simpl. rewrite IH, Hc.
  destruct (after_last c s); [done|]. simpl. by destruct (Ascii.eqb a c).
Qed.

Lemma skip_dots_lower s : skip_dots (lower s) = lower (skip_dots s).
Proof.
  induction s as [|a s IH]; [done|].
  destruct (Ascii.eqb a ".") eqn:Ha.
  - apply Ascii.eqb_eq in Ha as ->. exact IH.
  - assert (Ascii.eqb (lower_ascii a) "." = false) as Hl
      by by rewrite lower_ascii_eqb_dot.
    assert (∀ x r, Ascii.eqb x "." = false → skip_dots (String x r) = String x r)
      as Hskip.
    { intros x r Hx. destruct x as [[] [] [] [] [] [] [] []]; done. }
    rewrite (Hskip a s Ha).
    change (lower (String a s)) with (String (lower_ascii a) (lower s)).
    by rewrite Hskip.
Qed.

Lemma basename_lower p : basename (lower p) = lower (basename p).
Proof.
  unfold basename. rewrite after_last_lower by apply lower_ascii_eqb_sep.
  by destruct (after_last "/" p).
Qed.

(** Lower-casing the name lower-cases the extension and nothing else. *)
Lemma splitext_lower p : splitext_ext (lower p) = lower (splitext_ext p).
Proof.
  unfold splitext_ext.
  rewrite basename_lower, skip_dots_lower,
    after_last_lower by apply lower_ascii_eqb_dot.
  by destruct (after_last "." _).
Qed.

End PathLemmas.

(** ** The catalogue *)

Section Catalogue.

Lemma sorted_StronglySorted l : StronglySorted String.le (sorted l).
Proof. apply StronglySorted_merge_sort; apply _. Qed.

Lemma sorted_Permutation l : sorted l ≡ₚ l.
Proof. apply merge_sort_Permutation. Qed.

(** The order in which the directory is listed does not matter. *)
Lemma sorted_unique l1 l2 : l1 ≡ₚ l2 → sorted l1 = sorted l2.
Proof.
  intros Hp. apply (StronglySorted_unique String.le);
    [apply sorted_StronglySorted..|].
  by rewrite !sorted_Permutation.
Qed.

Lemma StronglySorted_filter {A} (R : relation A) (P : A → Prop)
    `{∀ x, Decision (P x)} l :
  StronglySorted R l → StronglySorted R (filter P l).
Proof.
  induction 1 as [|x l _ IH Hx]; [constructor|].
  rewrite filter_cons. case_decide; [|done].
  constructor; [done|].
  apply Forall_forall. intros y [_ Hy]%list_elem_of_filter.
  by eapply Forall_forall in Hx.
Qed.

Lemma load_media_list_elem p listing :
  p ∈ load_media_list listing →
  ∃ f, p = Path.join MEDIA_DIR f ∧ f ∈ listing ∧ supported f = true.
Proof.
  unfold load_media_list.
  intros (f & -> & [Hs Hf]%list_elem_of_filter)%list_elem_of_fmap.
  exists f. split_and!; [done| |done]. by rewrite <-sorted_Permutation.
Qed.

End Catalogue.

(** C9: [load_media_list] gives the same catalogue whatever the order of
    the directory listing; the catalogue is the supported file names, each
    as often as listed, in sorted order, each joined to [MEDIA_DIR], and
    every entry is an absolute path. *)
Theorem catalogue_is_sorted_and_fixed (l1 l2 : list string) :
  l1 ≡ₚ l2 →
  load_media_list l1 = load_media_list l2
  ∧ ∃ names,
      load_media_list l1 = Path.join MEDIA_DIR <$> names
      ∧ StronglySorted String.le names
      ∧ names ≡ₚ filter (λ f, supported f = true) l1
      ∧ Forall (λ p, Path.isabs p = true) (load_media_list l1).
Proof.
  intros Hp. split.
  - unfold load_media_list. by rewrite (sorted_unique l1 l2).
  - exists (filter (λ f, supported f = true) (sorted l1)). split_and!.
    + done.
    + apply StronglySorted_filter, sorted_StronglySorted.
    + by rewrite sorted_Permutation.
    + unfold load_media_list. apply Forall_fmap, Forall_forall.
      intros f _. apply isabs_join.
Qed.

Lemma catalogue_is_sorted_and_fixed_witness :
  load_media_list ["c_img.png"; "notes.txt"; "b_clip.MP4"; ".png"; "a_img.png"]
  = load_media_list ["a_img.png"; ".png"; "c_img.png"; "b_clip.MP4"; "notes.txt"]
  ∧ ∃ names,
      load_media_list ["c_img.png"; "notes.txt"; "b_clip.MP4"; ".png"; "a_img.png"]
      = Path.join MEDIA_DIR <$> names
      ∧ StronglySorted String.le names
      ∧ names ≡ₚ filter (λ f, supported f = true)
                   ["c_img.png"; "notes.txt"; "b_clip.MP4"; ".png"; "a_img.png"]
      ∧ Forall (λ p, Path.isabs p = true)
          (load_media_list
             ["c_img.png"; "notes.txt"; "b_clip.MP4"; ".png"; "a_img.png"]).
Proof.
  apply catalogue_is_sorted_and_fixed.
  apply (Permutation_trans
           (l' := ["a_img.png"; "c_img.png"; "notes.txt"; "b_clip.MP4"; ".png"])).
  - change (["c_img.png"; "notes.txt"; "b_clip.MP4"; ".png"] ++ ["a_img.png"]
            ≡ₚ ["a_img.png"] ++ ["c_img.png"; "notes.txt"; "b_clip.MP4"; ".png"]).
    apply Permutation_app_comm.
  - apply perm_skip.
    apply (Permutation_trans
             (l' := [".png"; "c_img.png"; "notes.txt"; "b_clip.MP4"])).
    + change (["c_img.png"; "notes.txt"; "b_clip.MP4"] ++ [".png"]
              ≡ₚ [".png"] ++ ["c_img.png"; "notes.txt"; "b_clip.MP4"]).
      apply Permutation_app_comm.
    + apply perm_skip. apply perm_skip. apply perm_swap.
Defined.

(** ** Images and clips *)

(** [show] has two branches and takes one of them by [is_image]. *)
Lemma show_branch media env c i s s' p :
  media !! i = Some p →
  show media env c i s = Ok s' →
  if is_image p
  then last_was_video s' = false
       ∧ (head (trace s') = Some (DrawImage p)
          ∨ head (trace s') = Some (ErrorFrame p))
  else last_was_video s' = true
       ∧ ((∃ cmd, head (trace s') = Some (Launch cmd) ∧ is_Some (current_proc s'))
          ∨ (head (trace s') = Some BlackFrame ∧ current_proc s' = None)).
Proof.
  intros Hpath. unfold show, dbg. rewrite Hpath. simpl.
  destruct (stop_running_video _) as [s1|]; [|done]. simpl.
  destruct (is_image p).
  - unfold display_image, reset_display, blackout.
    destruct (last_was_video s1), (decodes env p); intros ?; simplify_eq/=; auto.
  - unfold play_video. destruct (player_cmd env p) as [cmd|];
      intros ?; simplify_eq/=; (split; [done|]); [left|right]; eauto.
Qed.

(** C10: every catalogue entry has a lower-cased extension in the image set
    or in the video set; [show] draws it if that extension is in the image
    set and otherwise plays it, and then the extension is in the video set;
    names that differ only in letter case are classified alike. *)
Theorem classification_is_binary (listing : list string) (p : string) :
  p ∈ load_media_list listing →
  (Path.lower (Path.splitext_ext p) ∈ IMG_EXTS
   ∨ Path.lower (Path.splitext_ext p) ∈ VID_EXTS)
  ∧ (is_image p = false → Path.lower (Path.splitext_ext p) ∈ VID_EXTS)
  ∧ (∀ media env c i s s',
       media !! i = Some p → show media env c i s = Ok s' →
       if is_image p
       then last_was_video s' = false
            ∧ (head (trace s') = Some (DrawImage p)
               ∨ head (trace s') = Some (ErrorFrame p))
       else last_was_video s' = true
            ∧ ((∃ cmd, head (trace s') = Some (Launch cmd)
                       ∧ is_Some (current_proc s'))
               ∨ (head (trace s') = Some BlackFrame ∧ current_proc s' = None)))
  ∧ (∀ q, Path.lower q = Path.lower p →
          supported q = supported p ∧ is_image q = is_image p).
Proof.
  intros (f & -> & _ & Hsup)%load_media_list_elem.
  unfold supported in Hsup. apply bool_decide_eq_true in Hsup.
  rewrite <-(splitext_join f) in Hsup.
  apply elem_of_union in Hsup as Hcases.
  split_and!.
  - done.
  - unfold is_image. intros Hni%bool_decide_eq_false. by destruct Hcases.
  - intros media env c i s s'. apply show_branch.
  - intros q Hq. unfold supported, is_image.
    by rewrite <-!splitext_lower, Hq.
Qed.

Lemma classification_is_binary_witness :
  (Path.lower (Path.splitext_ext
                 "/home/calen/projects/rpi-touch-app/media/b_clip.MP4") ∈ IMG_EXTS
   ∨ Path.lower (Path.splitext_ext
                   "/home/calen/projects/rpi-touch-app/media/b_clip.MP4") ∈ VID_EXTS)
  ∧ supported "/home/calen/projects/rpi-touch-app/media/B_CLIP.mp4" = true
  ∧ is_image "/home/calen/projects/rpi-touch-app/media/B_CLIP.mp4" = false.
Proof.
  destruct (classification_is_binary
              ["c_img.png"; "notes.txt"; "b_clip.MP4"; ".png"; "a_img.png"]
              "/home/calen/projects/rpi-touch-app/media/b_clip.MP4")
    as (H1 & _ & _ & H4).
  { vm_compute load_media_list. apply list_elem_of_further, list_elem_of_here. }
  split; [exact H1|].
  destruct (H4 "/home/calen/projects/rpi-touch-app/media/B_CLIP.mp4" eq_refl)
    as [-> ->].
  split; reflexivity.
Defined.

(** * Further properties of the program *)

(** ** Start-up *)

Lemma filter_none {A} (P : A → Prop) `{∀ x, Decision (P x)} (l : list A) :
  Forall (λ x, ¬ P x) l → filter P l = [].
Proof.
  induction 1 as [|x l Hx _ IH]; [done|].
  by rewrite filter_cons_False.
Qed.

Lemma load_media_list_nil (listing : list string) :
  load_media_list listing = [] ↔ Forall (λ f, supported f = false) listing.
Proof.
  unfold load_media_list. split.
  - intros Hf%fmap_nil_inv. apply Forall_forall. intros f Hin.
    apply not_true_is_false. intros Hs.
    apply (filter_nil_not_elem_of _ _ f Hf Hs).
    by rewrite sorted_Permutation.
  - intros Hall. rewrite filter_none; [done|].
    rewrite sorted_Permutation. eapply Forall_impl; [exact Hall|].
    simpl. by intros f ->.
Qed.

(** X1: [main] leaves with [sys.exit(1)] exactly when the directory has no file
    with a supported extension; the order and the other files do not
    matter. *)
Theorem main_exits_iff_no_media env (listing : list string) t0 inps :
  main env listing t0 inps = None
  ↔ Forall (λ f, supported f = false) listing.
Proof.
  rewrite <-load_media_list_nil. unfold main.
  by destruct (load_media_list listing).
Qed.



(** ** Leaving the loop *)

Section Quit.

Variable media : list string.
Variable env : Env.

Lemma handle_event_running e s s' :
  handle_event media env e s = Ok s' →
  running s' = running s && negb (is_quit e).
Proof.
  unfold handle_event, dbg.
  destruct e as [|[]| | |]; simpl; try (intros; simplify_eq/=; by rewrite ?andb_true_r, ?andb_false_r).
  all: destruct (_ <=? _)%Z; intros H;
    [apply advance_Ok in H as (_ & _ & _ & -> & _); simpl
    |simplify_eq/=]; by rewrite andb_true_r.
Qed.

Lemma handle_events_running evs s s' :
  handle_events media env evs s = Ok s' →
  running s' = running s && negb (existsb is_quit evs).
Proof.
  revert s. induction evs as [|e evs IH]; intros s H; simpl in H.
  - simplify_eq. simpl. by rewrite andb_true_r.
  - destruct (handle_event media env e s) as [s1|] eqn:He; [|done]. simpl in H.
    apply handle_event_running in He. apply IH in H. rewrite H, He. simpl.
    rewrite negb_orb. by rewrite andb_assoc.
Qed.

Lemma auto_advance_running s s' :
  auto_advance media env s = Ok s' → running s' = running s.
Proof.
  unfold auto_advance. destruct (current_proc s) as [p|]; [|by intros; simplify_eq].
  destruct (poll p (ticks s)); [|by intros; simplify_eq].
  by intros (_ & _ & _ & -> & _)%advance_Ok.
Qed.

Lemma handle_touches_running n s s' :
  handle_touches media env n s = Ok s' → running s' = running s.
Proof.
  revert s. induction n as [|n IH]; intros s H; simpl in H; [by simplify_eq|].
  destruct (handle_touch media env s) as [s1|] eqn:He; [|done]. simpl in H.
  apply IH in H. rewrite H. unfold handle_touch, dbg in He.
  destruct (_ <=? _)%Z; [|by simplify_eq].
  by apply advance_Ok in He as (_ & _ & _ & -> & _).
Qed.

Lemma tick_running inp s s' :
  tick media env inp s = Ok s' →
  running s' = running s && negb (existsb is_quit (events inp)).
Proof.
  unfold tick. intros H.
  destruct (handle_events _ _ _ _) as [s1|] eqn:H1; [|done]. simpl in H.
  destruct (auto_advance _ _ _) as [s2|] eqn:H2; [|done]. simpl in H.
  destruct (handle_touches _ _ _ _) as [s3|] eqn:H3; [|done]. simpl in H.
  simplify_eq. simpl.
  apply handle_events_running in H1. apply auto_advance_running in H2.
  apply handle_touches_running in H3. congruence.
Qed.

End Quit.

(** X3: the loop is left exactly by a window-close or Escape event: an
    iteration ends with [running] false if and only if it began so or such
    an event was in its batch (wherever in the batch; the rest of the
    iteration still runs).  After the first such iteration the shutdown code
    runs and no further input is looked at. *)
Theorem quit_ends_the_loop media env inp s s' :
  tick media env inp s = Ok s' →
  running s' = running s && negb (existsb is_quit (events inp))
  ∧ (running s = true → existsb is_quit (events inp) = true →
     ∀ rest, main_loop media env (inp :: rest) s = Ok (shutdown s')).
Proof.
  intros H. pose proof (tick_running _ _ _ _ _ H) as Hr. split; [done|].
  intros Hrun Hq rest. simpl. rewrite Hrun, H. simpl.
  rewrite Hrun, Hq in Hr. simpl in Hr. destruct rest; simpl; by rewrite Hr.
Qed.

Lemma quit_ends_the_loop_witness :
  running (Scenario.state_of
             (tick Scenario.media_V (Scenario.player None (Some 1500%Z))
                (mkTick [OtherEvent; KEYDOWN K_ESCAPE; KEYDOWN K_other] 0 33)
                Scenario.booted_V))
  = running Scenario.booted_V
    && negb (existsb is_quit [OtherEvent; KEYDOWN K_ESCAPE; KEYDOWN K_other])
  ∧ (running Scenario.booted_V = true →
     existsb is_quit [OtherEvent; KEYDOWN K_ESCAPE; KEYDOWN K_other] = true →
     ∀ rest,
       main_loop Scenario.media_V (Scenario.player None (Some 1500%Z))
         (mkTick [OtherEvent; KEYDOWN K_ESCAPE; KEYDOWN K_other] 0 33 :: rest)
         Scenario.booted_V
       = Ok (shutdown
               (Scenario.state_of
                  (tick Scenario.media_V (Scenario.player None (Some 1500%Z))
                     (mkTick [OtherEvent; KEYDOWN K_ESCAPE; KEYDOWN K_other] 0 33)
                     Scenario.booted_V)))).
Proof.
  apply (quit_ends_the_loop Scenario.media_V (Scenario.player None (Some 1500%Z))
           (mkTick [OtherEvent; KEYDOWN K_ESCAPE; KEYDOWN K_other] 0 33)).
  vm_compute. reflexivity.
Defined.

(** ** Supervising the player *)

Section Supervision.

Variable media : list string.
Variable env : Env.

Lemma poll_monotone p t t' : (t ≤ t')%Z → poll p t = true → poll p t' = true.
Proof.
  unfold poll. destruct (exits_at p) as [e|]; [|done].
  intros Ht He%Z.leb_le. apply Z.leb_le. lia.
Qed.

Lemma wait_spec p timeout t t' b :
  (0 ≤ timeout)%Z → wait p timeout t = (t', b) →
  (t ≤ t' ≤ t + timeout)%Z
  ∧ poll p t' = b
  ∧ (b = false → t' = (t + timeout)%Z).
Proof.
  unfold wait, poll. intros Hto Hw.
  destruct (exits_at p) as [e|]; [|simplify_eq; split_and!; [lia..|done|done]].
  destruct (Z.leb_spec e (t + timeout)); simplify_eq.
  - split_and!; [lia..| |done]. apply Z.leb_le. lia.
  - split_and!; [lia..| |done]. apply Z.leb_gt. lia.
Qed.

Lemma terminate_dead p t : poll p t = true → terminate p t = p.
Proof. unfold terminate. by intros ->. Qed.

Lemma terminate_latency p t : term_latency (terminate p t) = term_latency p.
Proof.
  unfold terminate. destruct (poll p t); [done|].
  destruct (term_latency p) eqn:E; simpl; congruence.
Qed.

(** The three ways the "stop any running video" block can end. *)
Lemma stop_running_video_spec s :
  match stop_running_video s with
  | Ok s1 =>
      (has_live_player s = false ∧ s1 = s)
      ∨ (∃ p, current_proc s = Some p ∧ has_live_player s = true
              ∧ current_proc s1 = None ∧ last_was_video s1 = true
              ∧ (ticks s ≤ ticks s1 ≤ ticks s + 2000)%Z
              ∧ poll (terminate p (ticks s)) (ticks s1) = true
              ∧ trace s1 = Terminate :: trace s
              ∧ idx s1 = idx s ∧ spawned s1 = spawned s
              ∧ last_show_ms s1 = last_show_ms s)
  | Raise e s1 =>
      e = TimeoutExpired ∧ has_live_player s = true
      ∧ ticks s1 = (ticks s + 2000)%Z
      ∧ (∃ p, current_proc s1 = Some p ∧ poll p (ticks s1) = false)
      ∧ trace s1 = Terminate :: trace s
      ∧ idx s1 = idx s
  end.
Proof.
  unfold stop_running_video, has_live_player.
  destruct (current_proc s) as [p|] eqn:Hp; [|by left].
  destruct (poll p (ticks s)) eqn:Hpoll; [by left|].
  destruct (wait _ _ _) as [t b] eqn:Hw. simpl in Hw.
  apply wait_spec in Hw as (Ht & Hb & Hf); [|lia].
  destruct b; simpl.
  - right. exists p. split_and!; try done; try lia.
    replace (ticks s + (t - ticks s))%Z with t by lia. done.
  - specialize (Hf eq_refl). subst t.
    replace (ticks s + (ticks s + 2000 - ticks s))%Z with (ticks s + 2000)%Z by lia.
    split_and!; try done. eauto.
Qed.

Lemma has_live_player_false_poll s p :
  has_live_player s = false → current_proc s = Some p → poll p (ticks s) = true.
Proof.
  unfold has_live_player. intros H Hp. rewrite Hp in H.
  by apply negb_false_iff in H.
Qed.

(** Which handle [show] leaves in [current_proc]. *)
Lemma show_current_proc c i s s' :
  show media env c i s = Ok s' →
  ∃ path, media !! i = Some path ∧
    ((current_proc s' = None)
     ∨ (current_proc s' = current_proc s ∧ has_live_player s = false
        ∧ is_image path = true ∧ spawned s' = spawned s)
     ∨ (∃ life, current_proc s' = Some (mkPopen life (sigterm env (spawned s)))
                ∧ is_image path = false
                ∧ spawned s' = S (spawned s)))
    ∧ (current_proc s' = None → spawned s' = spawned s).
Proof.
  unfold show, dbg. destruct (media !! i) as [path|]; [|done]. simpl.
  pose proof (stop_running_video_spec
                (set_last_show_ms (ticks s) (log (ShowCalled c i (ticks s)) s)))
    as Hstop.
  destruct (stop_running_video _) as [s1|]; [|done]. simpl.
  intros Hshow. exists path. split; [done|].
  assert (spawned s1 = spawned s) as Hsp.
  { destruct Hstop as [[_ ->]|(p & _ & _ & _ & _ & _ & _ & _ & _ & -> & _)]; done. }
  destruct (is_image path).
  - assert (current_proc s' = current_proc s1 ∧ spawned s' = spawned s) as [Hc Hs].
    { unfold display_image, reset_display, blackout in Hshow.
      destruct (last_was_video s1), (decodes env path); by simplify_eq/=. }
    rewrite Hc, Hs. split; [|done].
    destruct Hstop as [[Hl ->]|(p & _ & _ & Hnone & _)].
    + right. left. by split_and!.
    + by left.
  - unfold play_video in Hshow. destruct (player_cmd env path) as [cmd|];
      simplify_eq/=.
    + split; [|done]. right. right. rewrite Hsp. eauto.
    + split; [by left|done].
Qed.

(** [show] begins with its stop block; the clock does not go back after it. *)
Lemma show_unfold c i s s' :
  show media env c i s = Ok s' →
  ∃ path s1,
    media !! i = Some path
    ∧ stop_running_video
        (set_last_show_ms (ticks s) (log (ShowCalled c i (ticks s)) s)) = Ok s1
    ∧ (ticks s1 ≤ ticks s')%Z.
Proof.
  unfold show, dbg. destruct (media !! i) as [path|]; [|done]. simpl.
  destruct (stop_running_video _) as [s1|]; [|done]. simpl.
  intros Hshow. exists path, s1. split_and!; [done..|].
  destruct (is_image path);
    [ unfold display_image, reset_display, blackout in Hshow;
      destruct (last_was_video s1), (decodes env path); simplify_eq/=; lia
    | unfold play_video in Hshow;
      destruct (player_cmd env path); simplify_eq/=; lia ].
Qed.

Lemma has_live_player_sleep d s :
  (0 ≤ d)%Z → has_live_player (sleep d s) = true → has_live_player s = true.
Proof.
  unfold has_live_player. simpl. destruct (current_proc s) as [p|]; [|done].
  intros Hd Hl%negb_true_iff. apply negb_true_iff.
  destruct (poll p (ticks s)) eqn:Hp; [|done].
  apply (poll_monotone p (ticks s) (ticks s + d)) in Hp; [congruence|lia].
Qed.

End Supervision.

(** X4: the "stop any running video" block of [show] does nothing when no
    player is running.  When one is, it sends SIGTERM and waits: either the
    wait returns within the 2000 ms of its timeout, the player has then
    exited, the handle is dropped and [last_was_video] set; or the wait
    raises [TimeoutExpired] at the 2000 ms, with the player still running and
    its handle kept. *)
Theorem stop_waits_at_most_two_seconds (s : State) :
  match stop_running_video s with
  | Ok s1 =>
      (ticks s ≤ ticks s1 ≤ ticks s + 2000)%Z
      ∧ (has_live_player s = false → s1 = s)
      ∧ (has_live_player s = true →
         head (trace s1) = Some Terminate
         ∧ current_proc s1 = None
         ∧ last_was_video s1 = true
         ∧ ∀ p, current_proc s = Some p →
                poll (terminate p (ticks s)) (ticks s1) = true)
  | Raise e s1 =>
      e = TimeoutExpired
      ∧ has_live_player s = true
      ∧ ticks s1 = (ticks s + 2000)%Z
      ∧ head (trace s1) = Some Terminate
      ∧ ∃ p, current_proc s1 = Some p ∧ poll p (ticks s1) = false
  end.
Proof.
  pose proof (stop_running_video_spec s) as Hspec.
  destruct (stop_running_video s) as [s1|e s1].
  - destruct Hspec as [[Hl ->]|(p & Hp & Hl & Hnone & Hlwv & Ht & Hgone & Htr & _)].
    + split; [lia|]. split; [done|]. congruence.
    + split; [lia|]. split; [congruence|]. intros _.
      rewrite Htr. split_and!; [done..|]. intros q Hq. congruence.
  - destruct Hspec as (-> & Hl & Ht & Hp & Htr & _).
    split_and!; [done..| |done]. by rewrite Htr.
Qed.

Lemma stop_waits_at_most_two_seconds_witness :
  match stop_running_video (sleep 3000 Scenario.booted_V) with
  | Ok s1 =>
      (ticks (sleep 3000 Scenario.booted_V) ≤ ticks s1
       ≤ ticks (sleep 3000 Scenario.booted_V) + 2000)%Z
      ∧ (has_live_player (sleep 3000 Scenario.booted_V) = false →
         s1 = sleep 3000 Scenario.booted_V)
      ∧ (has_live_player (sleep 3000 Scenario.booted_V) = true →
         head (trace s1) = Some Terminate
         ∧ current_proc s1 = None
         ∧ last_was_video s1 = true
         ∧ ∀ p, current_proc (sleep 3000 Scenario.booted_V) = Some p →
                poll (terminate p (ticks (sleep 3000 Scenario.booted_V)))
                  (ticks s1) = true)
  | Raise e s1 =>
      e = TimeoutExpired
      ∧ has_live_player (sleep 3000 Scenario.booted_V) = true
      ∧ ticks s1 = (ticks (sleep 3000 Scenario.booted_V) + 2000)%Z
      ∧ head (trace s1) = Some Terminate
      ∧ ∃ p, current_proc s1 = Some p ∧ poll p (ticks s1) = false
  end.
Proof. apply (stop_waits_at_most_two_seconds (sleep 3000 Scenario.booted_V)). Defined.

(** A player that is running when [show] has returned was started by this
    call. *)
Lemma live_after_show_is_new media env c i s s' :
  show media env c i s = Ok s' →
  has_live_player s' = true → spawned s' = S (spawned s).
Proof.
  intros Hshow Hlive.
  pose proof Hshow as (path & _ & Hcases & _)%show_current_proc.
  pose proof Hshow as (_ & _ & _ & _ & _ & _ & Ht & _)%show_Ok.
  destruct Hcases as [Hnone|[(Hsame & Hdead & _)|(life & _ & _ & Hsp)]];
    [| |done]; exfalso.
  - unfold has_live_player in Hlive. by rewrite Hnone in Hlive.
  - unfold has_live_player in Hlive, Hdead. rewrite Hsame in Hlive.
    destruct (current_proc s) as [p|]; [|done].
    apply negb_false_iff in Hdead. apply negb_true_iff in Hlive.
    apply (poll_monotone p _ (ticks s')) in Hdead; [congruence|done].
Qed.

(** X5: when [show] returns, the player that was current when it was called has
    exited; a player that is running afterwards is the one this call
    started.  So a new player is never started beside an old one. *)
Theorem previous_player_is_gone media env c i s s' :
  show media env c i s = Ok s' →
  (∀ p, current_proc s = Some p →
        poll (terminate p (ticks s)) (ticks s') = true)
  ∧ (has_live_player s' = true → spawned s' = S (spawned s)).
Proof.
  intros Hshow. split.
  - intros p Hp.
    pose proof Hshow as (path & s1 & _ & Hstop & Ht)%show_unfold.
    pose proof (stop_running_video_spec
                  (set_last_show_ms (ticks s) (log (ShowCalled c i (ticks s)) s)))
      as Hspec.
    rewrite Hstop in Hspec.
    destruct Hspec as [[Hl ->]|(q & Hq & _ & _ & _ & Ht1 & Hgone & _)];
      simpl in *.
    + apply has_live_player_false_poll with (p := p) in Hl; [|done].
      simpl in Hl. rewrite terminate_dead by done.
      eapply poll_monotone; [|done]. lia.
    + simplify_eq. eapply poll_monotone; [|done]. lia.
  - exact (live_after_show_is_new _ _ _ _ _ _ Hshow).
Qed.

Lemma previous_player_is_gone_witness :
  (∀ p, current_proc Scenario.booted_V = Some p →
        poll (terminate p (ticks Scenario.booted_V))
          (ticks (Scenario.state_of
                    (show Scenario.media_V (Scenario.player None (Some 1500%Z))
                       Press 1 Scenario.booted_V))) = true)
  ∧ (has_live_player
       (Scenario.state_of
          (show Scenario.media_V (Scenario.player None (Some 1500%Z))
             Press 1 Scenario.booted_V)) = true →
     spawned (Scenario.state_of
                (show Scenario.media_V (Scenario.player None (Some 1500%Z))
                   Press 1 Scenario.booted_V))
     = S (spawned Scenario.booted_V)).
Proof.
  apply (previous_player_is_gone Scenario.media_V
           (Scenario.player None (Some 1500%Z)) Press 1).
  vm_compute. reflexivity.
Defined.

(** X6: a clip that has ended is advanced past once: when the completion check
    has run without a new player being started, running it again changes
    nothing. *)
Theorem completion_fires_once media env s s' :
  auto_advance media env s = Ok s' →
  spawned s' = spawned s →
  auto_advance media env s' = Ok s'.
Proof.
  unfold auto_advance at 1.
  destruct (current_proc s) as [p|] eqn:Hp.
  - destruct (poll p (ticks s)) eqn:Hpoll.
    + unfold advance. intros (path & _ & Hcases & _)%show_current_proc Hsp.
      simpl in *.
      destruct Hcases as [Hnone|[(Hsame & _)|(life & _ & _ & Hnew)]].
      * unfold auto_advance. by rewrite Hnone.
      * unfold auto_advance. by rewrite Hsame.
      * lia.
    + intros ? _; simplify_eq. unfold auto_advance. by rewrite Hp, Hpoll.
  - intros ? _; simplify_eq. unfold auto_advance. by rewrite Hp.
Qed.

Lemma completion_fires_once_witness :
  auto_advance Scenario.media_V (Scenario.player (Some 3000%Z) (Some 100%Z))
    (Scenario.state_of
       (auto_advance Scenario.media_V (Scenario.player (Some 3000%Z) (Some 100%Z))
          (sleep 3000 Scenario.booted_V_ends)))
  = Ok (Scenario.state_of
          (auto_advance Scenario.media_V (Scenario.player (Some 3000%Z) (Some 100%Z))
             (sleep 3000 Scenario.booted_V_ends))).
Proof.
  apply (completion_fires_once Scenario.media_V
           (Scenario.player (Some 3000%Z) (Some 100%Z))
           (sleep 3000 Scenario.booted_V_ends)).
  - vm_compute. reflexivity.
  - vm_compute. reflexivity.
Defined.

(** ** What the flags mean *)

Section Flags.

Variable media : list string.
Variable env : Env.

Lemma show_flags_match c i s s' :
  show media env c i (set_idx i s) = Ok s' → flags_match media s'.
Proof.
  intros Hshow.
  pose proof Hshow as (path & seg & Hpath & Hi & _ & _ & Ht & Hlwv & _)%show_Ok.
  pose proof (live_after_show_is_new _ _ _ _ _ _ Hshow) as Hnew.
  pose proof Hshow as (path' & Hpath' & Hcases & _)%show_current_proc.
  simpl in *. simplify_eq. exists path.
  split_and!; [done..|]. intros Hlive.
  destruct Hcases as [Hnone|[(_ & _ & _ & Hsp)|(_ & _ & Himg & _)]]; [| |done].
  - unfold has_live_player in Hlive. by rewrite Hnone in Hlive.
  - apply Hnew in Hlive. simpl in *. lia.
Qed.

Lemma flags_match_log a s : flags_match media s → flags_match media (log a s).
Proof. done. Qed.

End Flags.

(** X7: after start-up and after every completed step of the loop body
    (an event handled, the completion check done, a touch token handled, a
    wait) [last_was_video] tells whether the item at [idx] is a clip, and a
    player is running only while the item at [idx] is a clip. *)
Theorem flags_describe_the_item media env s :
  reachable media env s →
  ∃ p, media !! idx s = Some p
       ∧ last_was_video s = negb (is_image p)
       ∧ (has_live_player s = true → is_image p = false).
Proof.
  induction 1 as [t0 s H|e s s' _ IH H|s s' _ IH H|s s' _ IH H|d s _ IH Hd].
  - unfold boot in H.
    by apply (show_flags_match media env Start 0
                (mkState 0 None false t0 true 0 t0 0 [])).
  - unfold handle_event, dbg in H.
    destruct e as [|[]| | |]; simpl in H; try (simplify_eq; exact IH).
    all: destruct (_ <=? _)%Z; [|simplify_eq; exact IH];
      unfold advance in H; by eapply (show_flags_match media env).
  - unfold auto_advance in H. destruct (current_proc s) as [p|]; [|by simplify_eq].
    destruct (poll p (ticks s)); [|by simplify_eq].
    unfold advance in H. simpl in H.
    by eapply (show_flags_match media env).
  - unfold handle_touch, dbg in H. destruct (_ <=? _)%Z; [|simplify_eq; exact IH].
    unfold advance in H. by eapply (show_flags_match media env).
  - destruct IH as (p & Hp & Hl & Hlive). exists p. split_and!; [done..|].
    intros Hs%has_live_player_sleep; auto.
Qed.

Lemma flags_describe_the_item_witness :
  ∃ p, Scenario.media_V !! idx Scenario.booted_V = Some p
       ∧ last_was_video Scenario.booted_V = negb (is_image p)
       ∧ (has_live_player Scenario.booted_V = true → is_image p = false).
Proof.
  apply (flags_describe_the_item Scenario.media_V
           (Scenario.player None (Some 1500%Z))).
  apply (reach_boot _ _ 0%Z). reflexivity.
Defined.

(** ** Exceptions *)

Section Exceptions.

Variable media : list string.
Variable env : Env.
Hypothesis media_nonempty : 0 < length media.

Lemma show_Raise c i s e s' :
  i < length media →
  show media env c i s = Raise e s' → died_waiting e s'.
Proof.
  intros [path Hpath]%lookup_lt_is_Some. unfold show, dbg. rewrite Hpath. simpl.
  pose proof (stop_running_video_spec
                (set_last_show_ms (ticks s) (log (ShowCalled c i (ticks s)) s)))
    as Hspec.
  destruct (stop_running_video _) as [s1|e1 s1]; simpl.
  - destruct (is_image path); [done|]. by destruct (play_video env path s1).
  - intros ?; simplify_eq.
    destruct Hspec as (-> & _ & _ & Hp & Htr & _).
    split_and!; [done| |done]. by rewrite Htr.
Qed.

Lemma advance_Raise c s e s' :
  advance media env c s = Raise e s' → died_waiting e s'.
Proof. unfold advance. apply show_Raise. by apply Nat.mod_upper_bound, Nat.neq_0_lt_0. Qed.

Lemma handle_event_Raise ev s e s' :
  handle_event media env ev s = Raise e s' → died_waiting e s'.
Proof.
  unfold handle_event, dbg. destruct ev as [|[]| | |]; try done.
  all: simpl; destruct (_ <=? _)%Z; [apply advance_Raise|done].
Qed.

Lemma handle_events_Raise evs s e s' :
  handle_events media env evs s = Raise e s' → died_waiting e s'.
Proof.
  revert s. induction evs as [|ev evs IH]; intros s; simpl; [done|].
  destruct (handle_event media env ev s) as [s1|e1 s1] eqn:He; simpl.
  - apply IH.
  - intros ?; simplify_eq. by eapply handle_event_Raise.
Qed.

Lemma auto_advance_Raise s e s' :
  auto_advance media env s = Raise e s' → died_waiting e s'.
Proof.
  unfold auto_advance. destruct (current_proc s) as [p|]; [|done].
  destruct (poll p (ticks s)); [apply advance_Raise|done].
Qed.

Lemma handle_touches_Raise n s e s' :
  handle_touches media env n s = Raise e s' → died_waiting e s'.
Proof.
  revert s. induction n as [|n IH]; intros s; simpl; [done|].
  destruct (handle_touch media env s) as [s1|e1 s1] eqn:He; simpl.
  - apply IH.
  - intros ?; simplify_eq. unfold handle_touch, dbg in He.
    destruct (_ <=? _)%Z; [by eapply advance_Raise|done].
Qed.

Lemma tick_Raise inp s e s' :
  tick media env inp s = Raise e s' → died_waiting e s'.
Proof.
  unfold tick.
  destruct (handle_events _ _ _ _) as [s1|] eqn:H1; simpl;
    [|intros ?; simplify_eq; by eapply handle_events_Raise].
  destruct (auto_advance _ _ _) as [s2|] eqn:H2; simpl;
    [|intros ?; simplify_eq; by eapply auto_advance_Raise].
  destruct (handle_touches _ _ _ _) as [s3|] eqn:H3; simpl; [done|].
  intros ?; simplify_eq; by eapply handle_touches_Raise.
Qed.

Lemma main_loop_Raise inps s e s' :
  main_loop media env inps s = Raise e s' → died_waiting e s'.
Proof.
  revert s. induction inps as [|inp inps IH]; intros s; simpl.
  - by destruct (running s).
  - destruct (running s); [|done].
    destruct (tick media env inp s) as [s1|] eqn:Ht; simpl; [apply IH|].
    intros ?; simplify_eq. by eapply tick_Raise.
Qed.

(** With obedient players nothing raises. *)

Hypothesis players_obey : obedient env.

Lemma wait_obedient p t d :
  poll p t = false → term_latency p = Some d → (d ≤ 2000)%Z →
  (wait (terminate p t) 2000 t).2 = true.
Proof.
  intros Hpoll Hd Hle. unfold terminate. rewrite Hpoll, Hd. unfold wait. simpl.
  destruct (exits_at p) as [e|].
  - destruct (Z.leb_spec (Z.min e (t + d)) (t + 2000)); [done|lia].
  - destruct (Z.leb_spec (t + d) (t + 2000)); [done|lia].
Qed.

Lemma show_obedient c i s :
  i < length media → handle_obedient s →
  ∃ s', show media env c i s = Ok s' ∧ handle_obedient s'.
Proof.
  intros Hi Hs.
  destruct (show media env c i s) as [s'|e s'] eqn:Hshow.
  - exists s'. split; [done|]. intros p Hp.
    apply show_current_proc in Hshow as (path & _ & Hcases & _).
    destruct Hcases as [?|[(Hsame & _)|(life & Hnew & _)]].
    + congruence.
    + apply Hs. congruence.
    + rewrite Hnew in Hp. simplify_eq. simpl. apply players_obey.
  - exfalso. apply lookup_lt_is_Some in Hi as [path Hpath].
    unfold show, dbg in Hshow. rewrite Hpath in Hshow. simpl in Hshow.
    unfold stop_running_video in Hshow. simpl in Hshow.
    destruct (current_proc s) as [p|] eqn:Hp.
    + destruct (poll p (ticks s)) eqn:Hpoll.
      * simpl in Hshow. destruct (is_image path); [done|].
        by destruct (play_video env path _).
      * destruct (Hs p Hp) as (d & Hd & Hle).
        pose proof (wait_obedient p (ticks s) d Hpoll Hd Hle) as Hw.
        destruct (wait _ _ _) as [t b]. simpl in Hw. subst b. simpl in Hshow.
        destruct (is_image path); [done|].
        by destruct (play_video env path _).
    + simpl in Hshow. destruct (is_image path); [done|].
      by destruct (play_video env path _).
Qed.

Lemma advance_obedient c s :
  handle_obedient s → ∃ s', advance media env c s = Ok s' ∧ handle_obedient s'.
Proof.
  intros Hs. unfold advance. apply show_obedient; [|done].
  by apply Nat.mod_upper_bound, Nat.neq_0_lt_0.
Qed.

Lemma handle_event_obedient ev s :
  handle_obedient s →
  ∃ s', handle_event media env ev s = Ok s' ∧ handle_obedient s'.
Proof.
  intros Hs. unfold handle_event, dbg.
  destruct ev as [|[]| | |]; simpl; try by eexists.
  all: destruct (_ <=? _)%Z; [by apply advance_obedient|by eexists].
Qed.

Lemma handle_events_obedient evs s :
  handle_obedient s →
  ∃ s', handle_events media env evs s = Ok s' ∧ handle_obedient s'.
Proof.
  revert s. induction evs as [|ev evs IH]; intros s Hs; simpl; [by eexists|].
  destruct (handle_event_obedient ev s Hs) as (s1 & -> & Hs1). simpl. auto.
Qed.

Lemma auto_advance_obedient s :
  handle_obedient s →
  ∃ s', auto_advance media env s = Ok s' ∧ handle_obedient s'.
Proof.
  intros Hs. unfold auto_advance. destruct (current_proc s) as [p|]; [|by eexists].
  destruct (poll p (ticks s)); [|by eexists].
  apply advance_obedient. by intros q ?.
Qed.

Lemma handle_touches_obedient n s :
  handle_obedient s →
  ∃ s', handle_touches media env n s = Ok s' ∧ handle_obedient s'.
Proof.
  revert s. induction n as [|n IH]; intros s Hs; simpl; [by eexists|].
  assert (∃ s1, handle_touch media env s = Ok s1 ∧ handle_obedient s1)
    as (s1 & -> & Hs1).
  { unfold handle_touch, dbg.
    destruct (_ <=? _)%Z; [by apply advance_obedient|by eexists]. }
  simpl. auto.
Qed.

Lemma tick_obedient inp s :
  handle_obedient s →
  ∃ s', tick media env inp s = Ok s' ∧ handle_obedient s'.
Proof.
  intros Hs. unfold tick.
  destruct (handle_events_obedient (events inp) s Hs) as (s1 & -> & Hs1). simpl.
  destruct (auto_advance_obedient s1 Hs1) as (s2 & -> & Hs2). simpl.
  destruct (handle_touches_obedient (touches inp) s2 Hs2) as (s3 & -> & Hs3).
  simpl. by eexists.
Qed.

Lemma main_loop_obedient inps s :
  handle_obedient s → ∃ s', main_loop media env inps s = Ok s'.
Proof.
  revert s. induction inps as [|inp inps IH]; intros s Hs; simpl.
  - destruct (running s); by eexists.
  - destruct (running s); [|by eexists].
    destruct (tick_obedient inp s Hs) as (s1 & -> & Hs1). simpl. auto.
Qed.

End Exceptions.

(** X8: [media[idx]] never raises [IndexError] in a run of [main]: the
    index is in range at every call of [show].  So when [main] ends by one of
    the two exceptions of [exn], it is the [TimeoutExpired] of
    [wait(timeout=2)], raised right after SIGTERM was sent, with the player
    still running and its handle still in [current_proc]. *)
Theorem media_index_always_in_range env (listing : list string) t0 inps e s :
  main env listing t0 inps = Some (Raise e s) →
  e = TimeoutExpired
  ∧ head (trace s) = Some Terminate
  ∧ ∃ p, current_proc s = Some p ∧ poll p (ticks s) = false.
Proof.
  unfold main. destruct (load_media_list listing) as [|f media'] eqn:Hl; [done|].
  intros [= Hrun].
  assert (0 < length (f :: media')) as Hlen by (simpl; lia).
  destruct (boot (f :: media') env t0) as [s0|e0 s0] eqn:Hboot; simpl in Hrun.
  - by eapply main_loop_Raise.
  - simplify_eq. unfold boot in Hboot. by eapply show_Raise.
Qed.

Lemma media_index_always_in_range_witness :
  ∃ s,
    main (Scenario.player None None) ["c_pic.png"; "a_clip.mp4"; "b_pic.png"] 0
      [Scenario.idle 3000; Scenario.press 33] = Some (Raise TimeoutExpired s)
    ∧ head (trace s) = Some Terminate
    ∧ ∃ p, current_proc s = Some p ∧ poll p (ticks s) = false.
Proof.
  eexists. split; [vm_compute; reflexivity|].
  apply (media_index_always_in_range (Scenario.player None None)
           ["c_pic.png"; "a_clip.mp4"; "b_pic.png"] 0
           [Scenario.idle 3000; Scenario.press 33] TimeoutExpired).
  vm_compute. reflexivity.
Defined.

(** X9: if every player that is started exits within two seconds of SIGTERM,
    no [wait(timeout=2)] times out: no run of [main], whatever the directory,
    the events and the tokens, raises [TimeoutExpired] (or [IndexError]). *)
Theorem obedient_players_never_time_out env (listing : list string) t0 inps :
  obedient env →
  ∀ e s, main env listing t0 inps ≠ Some (Raise e s).
Proof.
  intros Hobey e s. unfold main.
  destruct (load_media_list listing) as [|f media'] eqn:Hl; [done|].
  assert (0 < length (f :: media')) as Hlen by (simpl; lia).
  destruct (show_obedient (f :: media') env Hlen Hobey Start 0
              (mkState 0 None false t0 true 0 t0 0 [])) as (s0 & Hboot & Hs0);
    [done|by intros p|].
  unfold boot. rewrite Hboot. simpl.
  destruct (main_loop_obedient (f :: media') env Hlen Hobey inps s0 Hs0)
    as (s1 & ->).
  done.
Qed.

Lemma obedient_players_never_time_out_witness :
  ¬ ∃ e s,
      main (Scenario.only "mpv") ["c_pic.png"; "a_clip.mp4"; "b_pic.png"] 0
        [Scenario.idle 3000; Scenario.press 33; Scenario.touch 33]
      = Some (Raise e s).
Proof.
  intros (e & s & H).
  apply (obedient_players_never_time_out (Scenario.only "mpv")
           ["c_pic.png"; "a_clip.mp4"; "b_pic.png"] 0
           [Scenario.idle 3000; Scenario.press 33; Scenario.touch 33]) in H;
    [done|].
  intros n. exists 100%Z. split; [reflexivity|lia].
Defined.

(** ** Images that cannot be decoded *)

Section Corrupt.

Variable media : list string.
Variable env : Env.

Lemma bind_repainted o k k' :
  (∀ s, k' (repainted s) = repainted_outcome (k s)) →
  bind (repainted_outcome o) k' = repainted_outcome (bind o k).
Proof. intros Hk. destruct o as [s|e s]; simpl; [apply Hk|done]. Qed.

Lemma stop_running_video_repainted s :
  stop_running_video (repainted s) = repainted_outcome (stop_running_video s).
Proof.
  unfold stop_running_video. simpl. destruct (current_proc s) as [p|]; [|done].
  destruct (poll p (ticks s)); [done|].
  destruct (wait _ _ _) as [t b]. by destruct b.
Qed.

Lemma show_repainted c i s :
  show media (all_decodable env) c i (repainted s)
  = repainted_outcome (show media env c i s).
Proof.
  unfold show, dbg. simpl. destruct (media !! i) as [path|]; [|done].
  change (set_last_show_ms (ticks s) (log (ShowCalled c i (ticks s)) (repainted s)))
    with (repainted (set_last_show_ms (ticks s) (log (ShowCalled c i (ticks s)) s))).
  rewrite stop_running_video_repainted. apply bind_repainted. intros s1.
  destruct (is_image path).
  - unfold display_image, reset_display, blackout. simpl.
    by destruct (last_was_video s1), (decodes env path).
  - unfold play_video, player_cmd. simpl.
    by destruct (which env "omxplayer"), (which env "cvlc"), (which env "mpv").
Qed.

Lemma advance_repainted c s :
  advance media (all_decodable env) c (repainted s)
  = repainted_outcome (advance media env c s).
Proof. unfold advance. simpl. apply (show_repainted c _ (set_idx _ s)). Qed.

Lemma handle_event_repainted e s :
  handle_event media (all_decodable env) e (repainted s)
  = repainted_outcome (handle_event media env e s).
Proof.
  unfold handle_event, dbg. destruct e as [|[]| | |]; try done.
  all: simpl; destruct (_ <=? _)%Z; [|done];
    apply (advance_repainted Press (log (EventSeen _) s)).
Qed.

Lemma handle_events_repainted evs s :
  handle_events media (all_decodable env) evs (repainted s)
  = repainted_outcome (handle_events media env evs s).
Proof.
  revert s. induction evs as [|e evs IH]; intros s; simpl; [done|].
  rewrite handle_event_repainted. by apply bind_repainted.
Qed.

Lemma auto_advance_repainted s :
  auto_advance media (all_decodable env) (repainted s)
  = repainted_outcome (auto_advance media env s).
Proof.
  unfold auto_advance. simpl. destruct (current_proc s) as [p|]; [|done].
  destruct (poll p (ticks s)); [|done].
  apply (advance_repainted Completion
           (set_last_was_video true (set_current_proc None s))).
Qed.

Lemma handle_touches_repainted n s :
  handle_touches media (all_decodable env) n (repainted s)
  = repainted_outcome (handle_touches media env n s).
Proof.
  revert s. induction n as [|n IH]; intros s; simpl; [done|].
  assert (handle_touch media (all_decodable env) (repainted s)
          = repainted_outcome (handle_touch media env s)) as ->.
  { unfold handle_touch, dbg. simpl. destruct (_ <=? _)%Z; [|done].
    apply advance_repainted. }
  by apply bind_repainted.
Qed.

Lemma tick_repainted inp s :
  tick media (all_decodable env) inp (repainted s)
  = repainted_outcome (tick media env inp s).
Proof.
  unfold tick. rewrite handle_events_repainted. apply bind_repainted. intros s1.
  rewrite auto_advance_repainted. apply bind_repainted. intros s2.
  rewrite handle_touches_repainted. by apply bind_repainted.
Qed.

Lemma main_loop_repainted inps s :
  main_loop media (all_decodable env) inps (repainted s)
  = repainted_outcome (main_loop media env inps s).
Proof.
  revert s. induction inps as [|inp inps IH]; intros s; simpl.
  - destruct (running s); [done|]. unfold shutdown. simpl.
    destruct (current_proc s) as [p|]; [|done]. by destruct (poll p (ticks s)).
  - destruct (running s).
    + rewrite tick_repainted. by apply bind_repainted.
    + unfold shutdown. simpl.
      destruct (current_proc s) as [p|]; [|done]. by destruct (poll p (ticks s)).
Qed.

End Corrupt.

(** X10: an image that cannot be loaded changes nothing but the frame on screen:
    the whole run is, action for action and field for field, the run in
    which every image loads, with the red error frame where the picture
    would be.  In particular it raises nothing and costs no advance. *)
Theorem corrupt_image_only_changes_the_frame env (listing : list string) t0 inps :
  main (all_decodable env) listing t0 inps
  = repainted_outcome <$> main env listing t0 inps.
Proof.
  unfold main. destruct (load_media_list listing) as [|f media']; [done|].
  simpl. f_equal. unfold boot.
  change (mkState 0 None false t0 true 0 t0 0 [])
    with (repainted (mkState 0 None false t0 true 0 t0 0 [])) at 1.
  rewrite show_repainted. apply bind_repainted. intros s.
  apply main_loop_repainted.
Qed.

(** ** More on the catalogue *)

(** X11: joining a file name to [MEDIA_DIR] never changes its extension, so
    [show], which looks at the path, classifies every file as
    [load_media_list], which looks at the name, did. *)
Theorem show_sees_the_listed_extension (f : string) :
  Path.splitext_ext (Path.join MEDIA_DIR f) = Path.splitext_ext f
  ∧ supported (Path.join MEDIA_DIR f) = supported f
  ∧ is_image (Path.join MEDIA_DIR f) = is_image f.
Proof.
  unfold supported, is_image. by rewrite splitext_join.
Qed.

Section Dots.

Import Path.

Lemma after_last_absent c s : occurs c s = false → after_last c s = None.
Proof.
  induction s as [|a s IH]; [done|]. simpl.
  intros [Ha Hs]%orb_false_elim. by rewrite IH, Ha.
Qed.

Lemma skip_dots_absent s : occurs "." s = false → skip_dots s = s.
Proof.
  destruct s as [|a s]; [done|]. simpl. intros [Ha _]%orb_false_elim.
  destruct a as [[] [] [] [] [] [] [] []]; done.
Qed.

End Dots.

(** X12: a directory entry without a dot in its name is never in the
    catalogue, and neither is a hidden file whose only dot is the leading
    one, such as [.png]. *)
Theorem dotless_and_hidden_files_are_skipped (stem : string) :
  occurs "/" stem = false →
  occurs "." stem = false →
  supported stem = false ∧ supported (String "." stem) = false.
Proof.
  intros Hsep Hdot.
  assert (Path.splitext_ext stem = "") as He1.
  { unfold Path.splitext_ext, Path.basename.
    rewrite (after_last_absent "/" stem Hsep). simpl.
    by rewrite skip_dots_absent, after_last_absent. }
  assert (Path.splitext_ext (String "." stem) = "") as He2.
  { unfold Path.splitext_ext, Path.basename.
    rewrite (after_last_absent "/" (String "." stem))
      by (simpl; by rewrite Hsep).
    simpl. by rewrite skip_dots_absent, after_last_absent. }
  unfold supported. rewrite He1, He2. split; by vm_compute.
Qed.

Lemma dotless_and_hidden_files_are_skipped_witness :
  supported "png" = false ∧ supported ".png" = false.
Proof.
  apply (dotless_and_hidden_files_are_skipped "png"); reflexivity.
Defined.

(** ** The touch listener *)

Section Listener.

Import Evdev.

Variables EV_KEY BTN_TOUCH : Z.

Lemma filter_head_split {A} (P : A → Prop) `{∀ x, Decision (P x)} (l : list A) d rest :
  filter P l = d :: rest →
  ∃ pre post, l = pre ++ d :: post ∧ P d ∧ Forall (λ x, ¬ P x) pre.
Proof.
  induction l as [|x l IH]; [done|]. rewrite filter_cons. case_decide as Hx.
  - intros [= -> _]. exists [], l. split_and!; [done..|constructor].
  - intros (pre & post & -> & Hd & Hpre)%IH.
    exists (x :: pre), post. split_and!; [done..|]. by constructor.
Qed.

End Listener.

(** X13: the listener is started on the first device, in the order of
    [evdev.list_devices()], that advertises [BTN_TOUCH] among its [EV_KEY]
    capabilities; it is not started at all exactly when [evdev] cannot be
    imported or no device does; a device without [EV_KEY] capabilities is
    never chosen. *)
Theorem listener_binds_first_touch_device EV_KEY BTN_TOUCH evdev :
  (∀ d, Evdev.start_evdev_listener EV_KEY BTN_TOUCH evdev = Some d →
        ∃ pre post,
          evdev = Some (pre ++ d :: post)
          ∧ Evdev.adverts_touch EV_KEY BTN_TOUCH d = true
          ∧ Forall (λ x, Evdev.adverts_touch EV_KEY BTN_TOUCH x = false) pre
          ∧ is_Some (Evdev.capabilities d !! EV_KEY))
  ∧ (Evdev.start_evdev_listener EV_KEY BTN_TOUCH evdev = None
     ↔ evdev = None
       ∨ ∃ devices, evdev = Some devices
           ∧ Forall (λ x, Evdev.adverts_touch EV_KEY BTN_TOUCH x = false) devices).
Proof.
  unfold Evdev.start_evdev_listener. destruct evdev as [devices|].
  - destruct (filter _ devices) as [|dev rest] eqn:Hf.
    + split; [done|]. split; [|done]. intros _. right. exists devices.
      split; [done|]. apply Forall_forall. intros x Hx.
      apply not_true_is_false. intros Ha.
      by apply (filter_nil_not_elem_of _ _ x Hf Ha).
    + split.
      * intros d [= <-].
        apply filter_head_split in Hf as (pre & post & -> & Hd & Hpre).
        exists pre, post. split_and!; [done..| |].
        -- eapply Forall_impl; [exact Hpre|]. simpl. intros x Hx.
           by apply not_true_is_false.
        -- unfold Evdev.adverts_touch in Hd. apply bool_decide_eq_true in Hd.
           destruct (Evdev.capabilities dev !! EV_KEY); [by eexists|].
           simpl in Hd. by apply elem_of_nil in Hd.
      * split; [done|]. intros [?|(devs & [= <-] & Hall)]; [done|].
        exfalso.
        assert (dev ∈ filter (λ d, Evdev.adverts_touch EV_KEY BTN_TOUCH d = true)
                       devices) as Hin by (rewrite Hf; left).
        apply list_elem_of_filter in Hin as [Hd Hin].
        eapply Forall_forall in Hall; [|exact Hin]. congruence.
  - split; [done|]. split; [by left|done].
Qed.

Lemma listener_binds_first_touch_device_witness :
  ∃ pre post,
    Some [Scenario.keyboard; Scenario.mouse; Scenario.screen_a; Scenario.screen_b]
    = Some (pre ++ Scenario.screen_a :: post)
    ∧ Evdev.adverts_touch 1 330 Scenario.screen_a = true
    ∧ Forall (λ x, Evdev.adverts_touch 1 330 x = false) pre
    ∧ is_Some (Evdev.capabilities Scenario.screen_a !! 1%Z).
Proof.
  destruct (listener_binds_first_touch_device 1 330
              (Some [Scenario.keyboard; Scenario.mouse;
                     Scenario.screen_a; Scenario.screen_b])) as [H _].
  apply H. vm_compute. reflexivity.
Defined.

(** X14: the worker puts one token into the queue for every press of
    [BTN_TOUCH] that it reads, in order, and nothing for any other event
    (a release, a key repeat, another key, another event type). *)
Theorem worker_one_token_per_press EV_KEY BTN_TOUCH (evs1 evs2 : list Evdev.InputEvent) :
  Evdev.worker EV_KEY BTN_TOUCH (evs1 ++ evs2)
  = Evdev.worker EV_KEY BTN_TOUCH evs1 ++ Evdev.worker EV_KEY BTN_TOUCH evs2
  ∧ Evdev.worker EV_KEY BTN_TOUCH evs1
    = replicate
        (length (filter (λ ev, Evdev.ev_type ev = EV_KEY
                               ∧ Evdev.ev_code ev = BTN_TOUCH
                               ∧ Evdev.ev_value ev = 1%Z) evs1))
        true.
Proof.
  assert (∀ ev, Evdev.is_touch_press EV_KEY BTN_TOUCH ev = true
                ↔ Evdev.ev_type ev = EV_KEY ∧ Evdev.ev_code ev = BTN_TOUCH
                  ∧ Evdev.ev_value ev = 1%Z) as Hspec.
  { intros ev. unfold Evdev.is_touch_press.
    rewrite !andb_true_iff, !Z.eqb_eq. tauto. }
  split.
  - induction evs1 as [|ev evs1 IH]; [done|]. simpl.
    destruct (Evdev.is_touch_press _ _ ev); simpl; by rewrite IH.
  - induction evs1 as [|ev evs1 IH]; [done|]. simpl. rewrite filter_cons.
    destruct (Evdev.is_touch_press _ _ ev) eqn:Hp.
    + apply Hspec in Hp. rewrite decide_True by done. simpl. by rewrite IH.
    + rewrite decide_False; [done|]. intros Hc%Hspec. congruence.
Qed.
